(** * Image_Manipulator: a shallow embedding of the filters and their properties

    The development follows [Image_Manipulator.py].  Every filter of the
    module is translated to a function over an explicit image value; the
    exceptions that the pixel accessors of Cimpl can raise are kept in a
    small error monad, Python's [int] is [Z], and Python's [float] is the
    IEEE 754 binary64 format of [SpecFloat] (round to nearest, ties to
    even), so that the two filters that compute with floats are modelled
    bit for bit. *)

From Stdlib Require Import ZArith Lia SpecFloat Zpower.
From stdpp Require Import base tactics option list list_numbers.

Local Open Scope Z_scope.

(** ** Exceptions *)

Inductive exn := IndexError | ValueError | OverflowError.

Inductive result (A : Type) : Type :=
  | Ok (a : A)
  | Raise (e : exn).
Arguments Ok {A} a.
Arguments Raise {A} e.

#[global] Instance result_ret : MRet result := fun A a => Ok a.
#[global] Instance result_bind : MBind result := fun A B k m =>
  match m with
  | Ok a => k a
  | Raise e => Raise e
  end.

Definition raises {A} (m : result A) : Prop := exists e, m = Raise e.

(** ** Numbers

    The filters pass both [int] and [float] values to [create_color] and
    compare [int] channels with a threshold that the docstrings type as
    [int] (solarize) or [float] (edge detection). *)

Module Float.

Definition prec : Z := 53.
Definition emax : Z := 1024.

Definition mul : spec_float -> spec_float -> spec_float := SFmul prec emax.
Definition add : spec_float -> spec_float -> spec_float := SFadd prec emax.

(** [float(z)] for an [int] [z]: exact below [2 ^ 53], which covers every
    channel. *)
Definition of_int (z : Z) : spec_float := binary_normalize prec emax z 0 false.

(** The integer part of [m * 2 ^ e]. *)
Definition magnitude (m : positive) (e : Z) : Z :=
  if 0 <=? e then Zpos m * 2 ^ e else Zpos m / 2 ^ (- e).

(** Truncation toward zero. *)
Definition truncate (f : spec_float) : Z :=
  match f with
  | S754_finite s m e => if s then - magnitude m e else magnitude m e
  | _ => 0
  end.

(** [int(f)]: truncation toward zero; Python raises [OverflowError] on
    an infinity and [ValueError] on a NaN. *)
Definition to_int (f : spec_float) : result Z :=
  match f with
  | S754_infinity _ => Raise OverflowError
  | S754_nan => Raise ValueError
  | _ => Ok (truncate f)
  end.

(** Exact comparison of an [int] with a [float], as CPython does it;
    [None] stands for "unordered" (a NaN). *)
Definition compare_int (z : Z) (f : spec_float) : option comparison :=
  match f with
  | S754_nan => None
  | S754_infinity s => Some (if s then Gt else Lt)
  | S754_zero _ => Some (z ?= 0)
  | S754_finite s m e =>
      let v := if s then Zneg m else Zpos m in
      Some (if 0 <=? e then z ?= v * 2 ^ e else z * 2 ^ (- e) ?= v)
  end.

(** The literals of the source, each the binary64 value nearest to the
    decimal (mantissa and exponent). *)
Definition c_0_299 : spec_float := S754_finite false 5386305154335113 (-54).
Definition c_0_587 : spec_float := S754_finite false 5287225962532962 (-53).
Definition c_0_114 : spec_float := S754_finite false 8214565720323785 (-56).
Definition c_0_9   : spec_float := S754_finite false 8106479329266893 (-53).
Definition c_1_1   : spec_float := S754_finite false 4953959590107546 (-52).
Definition c_0_85  : spec_float := S754_finite false 7656119366529843 (-53).
Definition c_1_15  : spec_float := S754_finite false 5179139571476070 (-52).
Definition c_0_93  : spec_float := S754_finite false 8376695306909123 (-53).
Definition c_1_08  : spec_float := S754_finite false 4863887597560136 (-52).

(** [f] is a normal binary64 number and no other one is nearer to the
    decimal [num / den]. *)
Definition nearest_to (f : spec_float) (num den : Z) : bool :=
  match f with
  | S754_finite false m e =>
      (2 ^ 52 <=? Zpos m) && (Zpos m <? 2 ^ 53) && (e <? 0)
      && (2 * Z.abs (Zpos m * den - num * 2 ^ (- e)) <? den)
  | _ => false
  end.

(** The least exponent of the format, negated: every finite value is a
    multiple of [2 ^ (- scale)]. *)
Definition scale : Z := 1074.

(** The value of a float in units of [2 ^ (- scale)]. *)
Definition units (f : spec_float) : Z :=
  match f with
  | S754_finite _ m e => Zpos m * 2 ^ (e + scale)
  | _ => 0
  end.

(** Zero or a positive finite value. *)
Definition nonneg_finite (f : spec_float) : bool :=
  match f with
  | S754_zero s => negb s
  | S754_finite s m e => negb s && (- scale <=? e)
  | _ => false
  end.

End Float.

Inductive number :=
  | PyInt (z : Z)
  | PyFloat (f : spec_float).

Coercion PyInt : Z >-> number.

(** [int(v)] *)
Definition py_int (v : number) : result Z :=
  match v with
  | PyInt z => Ok z
  | PyFloat f => Float.to_int f
  end.

(** [a < b] *)
Definition py_lt (a b : number) : bool :=
  match a, b with
  | PyInt x, PyInt y => x <? y
  | PyInt x, PyFloat g =>
      match Float.compare_int x g with Some Lt => true | _ => false end
  | PyFloat f, PyInt y =>
      match Float.compare_int y f with Some Gt => true | _ => false end
  | PyFloat f, PyFloat g => SFltb f g
  end.

(** [a > b] *)
Definition py_gt (a b : number) : bool := py_lt b a.

(** [z * c] for an [int] [z] and a [float] [c] *)
Definition mul_int_float (z : Z) (c : spec_float) : spec_float :=
  Float.mul (Float.of_int z) c.

(** ** Cimpl: colours and images *)

Inductive Color := RGB (r g b : Z).

Definition red (c : Color) : Z := let 'RGB r _ _ := c in r.
Definition green (c : Color) : Z := let 'RGB _ g _ := c in g.
Definition blue (c : Color) : Z := let 'RGB _ _ b := c in b.

#[global] Instance Color_eq_dec : EqDecision Color.
Proof. solve_decision. Defined.

(** Modelled from the spec: [create_color] of Cimpl, which is imported and
    not part of the module.  It converts each component to [int]
    (truncation toward zero) and neither clamps nor rejects a component
    outside 0..255. *)
Definition create_color (r g b : number) : result Color :=
  r' ← py_int r; g' ← py_int g; b' ← py_int b; mret (RGB r' g' b').

(** Modelled from the spec: the image type of Cimpl, a grid of fixed width
    and height holding one colour per coordinate, here as a row-major
    buffer. *)
Record Image := mkImage {
  get_width : Z;
  get_height : Z;
  pixels : list Color
}.

Definition in_bounds (image : Image) (x y : Z) : bool :=
  (0 <=? x) && (x <? get_width image) && (0 <=? y) && (y <? get_height image).

Definition offset (image : Image) (x y : Z) : nat :=
  Z.to_nat (y * get_width image + x).

(** Modelled from the spec: the bounds-checked pixel read of Cimpl. *)
Definition get_color (image : Image) (x y : Z) : result Color :=
  if in_bounds image x y then
    match pixels image !! offset image x y with
    | Some c => Ok c
    | None => Raise IndexError
    end
  else Raise IndexError.

(** Modelled from the spec: the bounds-checked pixel write of Cimpl.  The
    image is a value here, so the write returns the updated image. *)
Definition set_color (image : Image) (x y : Z) (c : Color) : result Image :=
  if in_bounds image x y then
    Ok (mkImage (get_width image) (get_height image)
                (<[offset image x y := c]> (pixels image)))
  else Raise IndexError.

(** Modelled from the spec: [copy] of Cimpl returns an image that shares
    nothing with its argument; on values that is the identity. *)
Definition copy (image : Image) : Image := image.

(** [range(lo, hi)] *)
Definition range (lo hi : Z) : list Z := seqZ lo (hi - lo).

(** The coordinates that iterating over an image yields: row by row. *)
Definition coords (image : Image) : list (Z * Z) :=
  y ← range 0 (get_height image); x ← range 0 (get_width image); [(x, y)].

(** A [for] loop whose body updates a state and may raise. *)
Fixpoint for_each {A S : Type} (l : list A) (body : A -> S -> result S) (s : S)
  : result S :=
  match l with
  | [] => Ok s
  | a :: l' => s' ← body a s; for_each l' body s'
  end.

(** ** The filters *)

Definition grayscale (image : Image) : result Image :=
  let new_image := copy image in
  for_each (coords image) (fun '(x, y) new_image =>
    '(RGB r g b) ← get_color image x y;
    let brightness := (r + g + b) `div` 3 in
    gray ← create_color brightness brightness brightness;
    set_color new_image x y gray) new_image.

Definition negative (image : Image) : result Image :=
  let new_image := copy image in
  for_each (coords image) (fun '(x, y) new_image =>
    '(RGB r g b) ← get_color image x y;
    inverted ← create_color (255 - r) (255 - g) (255 - b);
    set_color new_image x y inverted) new_image.

Definition solarize (image : Image) (threshold : number) : result Image :=
  let new_image := copy image in
  for_each (coords image) (fun '(x, y) new_image =>
    '(RGB red green blue) ← get_color image x y;
    let red := if py_lt red threshold then 255 - red else red in
    let green := if py_lt green threshold then 255 - green else green in
    let blue := if py_lt blue threshold then 255 - blue else blue in
    col ← create_color red green blue;
    set_color new_image x y col) new_image.

Definition black_and_white (image : Image) : result Image :=
  let new_image := copy image in
  black ← create_color 0 0 0;
  white ← create_color 255 255 255;
  for_each (coords image) (fun '(x, y) new_image =>
    '(RGB red green blue) ← get_color image x y;
    let brightness := (red + green + blue) `div` 3 in
    if brightness <? 128 then set_color new_image x y black
    else set_color new_image x y white) new_image.

Definition black_and_white_and_gray (image : Image) : result Image :=
  let new_image := copy image in
  black ← create_color 0 0 0;
  gray ← create_color 128 128 128;
  white ← create_color 255 255 255;
  for_each (coords image) (fun '(x, y) new_image =>
    '(RGB red green blue) ← get_color image x y;
    let brightness := (red + green + blue) `div` 3 in
    if brightness <? 85 then set_color new_image x y black
    else if brightness <? 171 then set_color new_image x y gray
    else set_color new_image x y white) new_image.

(** [r * 0.299 + g * 0.587 + b * 0.114], evaluated left to right *)
Definition luminance (r g b : Z) : spec_float :=
  Float.add (Float.add (mul_int_float r Float.c_0_299)
                       (mul_int_float g Float.c_0_587))
            (mul_int_float b Float.c_0_114).

Definition weighted_grayscale (image : Image) : result Image :=
  let new_image := copy image in
  for_each (coords image) (fun '(x, y) new_image =>
    '(RGB r g b) ← get_color image x y;
    let brightness := PyFloat (luminance r g b) in
    gray ← create_color brightness brightness brightness;
    set_color new_image x y gray) new_image.

Definition extreme_contrast (image : Image) : result Image :=
  let new_image := copy image in
  for_each (coords image) (fun '(x, y) new_image =>
    '(RGB r g b) ← get_color image x y;
    let r := if r <? 128 then 0 else 255 in
    let g := if g <? 128 then 0 else 255 in
    let b := if b <? 128 then 0 else 255 in
    new_col ← create_color r g b;
    set_color new_image x y new_col) new_image.

(** The body of the loop of [sepia_tint] on one colour. *)
Definition sepia_color (c : Color) : result Color :=
  let 'RGB r g b := c in
  if r <? 63 then
    create_color (PyFloat (mul_int_float r Float.c_1_1)) g
                 (PyFloat (mul_int_float b Float.c_0_9))
  else if r <? 191 then
    create_color (PyFloat (mul_int_float r Float.c_1_15)) g
                 (PyFloat (mul_int_float b Float.c_0_85))
  else
    create_color (PyFloat (mul_int_float r Float.c_1_08)) g
                 (PyFloat (mul_int_float b Float.c_0_93)).

(** The loop iterates over [new_image] itself: each colour is read from
    the image that the earlier iterations have already written to. *)
Definition sepia_tint (image : Image) : result Image :=
  gray_image ← weighted_grayscale image;
  let new_image := copy gray_image in
  for_each (coords new_image) (fun '(x, y) new_image =>
    c ← get_color new_image x y;
    new_col ← sepia_color c;
    set_color new_image x y new_col) new_image.

Definition _adjust_component (amount : Z) : Z :=
  if amount <? 64 then 31
  else if amount <? 128 then 95
  else if amount <? 192 then 159
  else 223.

Definition posterize (image : Image) : result Image :=
  let new_image := copy image in
  for_each (coords image) (fun '(x, y) new_image =>
    '(RGB r g b) ← get_color image x y;
    let r := _adjust_component r in
    let g := _adjust_component g in
    let b := _adjust_component b in
    new_col ← create_color r g b;
    set_color new_image x y new_col) new_image.

Definition brightness_of (c : Color) : Z :=
  let 'RGB r g b := c in (r + g + b) `div` 3.

Definition detect_edges (image : Image) (threshold : number) : result Image :=
  let new_image := copy image in
  for_each (range 1 (get_height image - 1)) (fun y new_image =>
    for_each (range 1 (get_width image - 1)) (fun x new_image =>
      '(RGB pixel_red pixel_green pixel_blue) ← get_color image x y;
      '(RGB pixelbelow_red pixelbelow_green pixelbelow_blue) ←
        get_color image x (y + 1);
      let contrast_check :=
        (pixel_red + pixel_green + pixel_blue) `div` 3
        - (pixelbelow_red + pixelbelow_green + pixelbelow_blue) `div` 3 in
      if py_lt contrast_check threshold then
        col ← create_color 255 255 255; set_color new_image x y col
      else
        col ← create_color 0 0 0; set_color new_image x y col) new_image)
    new_image.

Definition detect_edges_better (image : Image) (threshold : number)
  : result Image :=
  let new_image := copy image in
  for_each (range 1 (get_height image - 1)) (fun y new_image =>
    for_each (range 1 (get_width image - 1)) (fun x new_image =>
      '(RGB pixel_red pixel_green pixel_blue) ← get_color image x y;
      '(RGB pixelbelow_red pixelbelow_green pixelbelow_blue) ←
        get_color image x (y + 1);
      '(RGB pixelright_red pixelright_green pixelright_blue) ←
        get_color image (x + 1) y;
      let contrast_check_below :=
        (pixel_red + pixel_green + pixel_blue) `div` 3
        - (pixelbelow_red + pixelbelow_green + pixelbelow_blue) `div` 3 in
      let contrast_check_right :=
        (pixel_red + pixel_green + pixel_blue) `div` 3
        - (pixelright_red + pixelright_green + pixelright_blue) `div` 3 in
      if py_gt contrast_check_below threshold
         || py_gt contrast_check_right threshold then
        col ← create_color 0 0 0; set_color new_image x y col
      else
        col ← create_color 255 255 255; set_color new_image x y col) new_image)
    new_image.

Definition blur_better (image : Image) : result Image :=
  let target := copy image in
  for_each (range 1 (get_height image - 1)) (fun y target =>
    for_each (range 1 (get_width image - 1)) (fun x target =>
      '(RGB top_red top_green top_blue) ← get_color image x (y - 1);
      '(RGB left_red left_green left_blue) ← get_color image (x - 1) y;
      '(RGB bottom_red bottom_green bottom_blue) ← get_color image x (y + 1);
      '(RGB right_red right_green right_blue) ← get_color image (x + 1) y;
      '(RGB center_red center_green center_blue) ← get_color image x y;
      '(RGB diagonaltopright_red diagonaltopright_green diagonaltopright_blue) ←
        get_color image (x + 1) (y - 1);
      '(RGB diagonaltopleft_red diagonaltopleft_green diagonaltopleft_blue) ←
        get_color image (x - 1) (y - 1);
      '(RGB diagonalbottomright_red diagonalbottomright_green
            diagonalbottomright_blue) ← get_color image (x + 1) (y + 1);
      '(RGB diagonalbottomleft_red diagonalbottomleft_green
            diagonalbottomleft_blue) ← get_color image (x - 1) (y + 1);
      let new_red :=
        (top_red + left_red + bottom_red + right_red + center_red
         + diagonaltopright_red + diagonaltopleft_red
         + diagonalbottomright_red + diagonalbottomleft_red) `div` 9 in
      let new_green :=
        (top_green + left_green + bottom_green + right_green + center_green
         + diagonaltopright_green + diagonaltopleft_green
         + diagonalbottomright_green + diagonalbottomleft_green) `div` 9 in
      let new_blue :=
        (top_blue + left_blue + bottom_blue + right_blue + center_blue
         + diagonaltopright_blue + diagonaltopleft_blue
         + diagonalbottomright_blue + diagonalbottomleft_blue) `div` 9 in
      new_color ← create_color new_red new_green new_blue;
      set_color target x y new_color) target)
    target.

Definition flip_vertical (image : Image) : result Image :=
  let new_image := copy image in
  for_each (range 1 (get_height image - 1)) (fun y new_image =>
    for_each (range 1 (get_width image - 1)) (fun x new_image =>
      col ← get_color image x y;
      set_color new_image (get_width image - (x + 1)) y col) new_image)
    new_image.

Definition flip_horizontal (image : Image) : result Image :=
  let new_image := copy image in
  for_each (range 1 (get_height image - 1)) (fun y new_image =>
    for_each (range 1 (get_width image - 1)) (fun x new_image =>
      col ← get_color image x y;
      set_color new_image x (get_height image - (y + 1)) col) new_image)
    new_image.

(** ** Well-formed images *)

Definition valid_color (c : Color) : Prop :=
  (0 <= red c <= 255) /\ (0 <= green c <= 255) /\ (0 <= blue c <= 255).

Definition well_formed (image : Image) : Prop :=
  0 <= get_width image /\ 0 <= get_height image /\
  length (pixels image) = Z.to_nat (get_width image * get_height image).

(** A grid of the data model: one colour per coordinate, each channel an
    integer of 0..255. *)
Definition valid_image (image : Image) : Prop :=
  well_formed image /\ Forall valid_color (pixels image).

#[global] Instance valid_color_dec c : Decision (valid_color c).
Proof. unfold valid_color. apply _. Defined.
#[global] Instance well_formed_dec image : Decision (well_formed image).
Proof. unfold well_formed. apply _. Defined.
#[global] Instance valid_image_dec image : Decision (valid_image image).
Proof. unfold valid_image. apply _. Defined.

Definition uniform_image (w h : Z) (c : Color) : Image :=
  mkImage w h (replicate (Z.to_nat (w * h)) c).

(** ** Coordinates and single writes *)

Definition in_range (image : Image) (x y : Z) : Prop :=
  (0 <= x < get_width image) /\ (0 <= y < get_height image).

Definition same_size (a b : Image) : Prop :=
  get_width a = get_width b /\ get_height a = get_height b.

(** The colour at a coordinate, when the read does not raise. *)
Definition pixel_at (image : Image) (x y : Z) : Color :=
  match get_color image x y with
  | Ok c => c
  | Raise _ => RGB 0 0 0
  end.

(** The image after a write that does not raise. *)
Definition put (image : Image) (x y : Z) (c : Color) : Image :=
  mkImage (get_width image) (get_height image)
          (<[offset image x y := c]> (pixels image)).

(** ** The coordinates a loop runs over *)

Definition grid (ys xs : list Z) : list (Z * Z) :=
  y ← ys; x ← xs; [(x, y)].

Definition interior (image : Image) : list (Z * Z) :=
  grid (range 1 (get_height image - 1)) (range 1 (get_width image - 1)).

(** ** What the point filters store

    Every point filter but [sepia_tint] reads each colour of the input and
    writes a function of it at the same coordinate of the copy. *)

Definition map_image (g : Color -> Color) (image : Image) : Image :=
  mkImage (get_width image) (get_height image) (g <$> pixels image).

(** The colour that each point filter computes from one colour. *)
Definition grayscale_color (c : Color) : Color :=
  let 'RGB r g b := c in
  let brightness := (r + g + b) `div` 3 in RGB brightness brightness brightness.

Definition negative_color (c : Color) : Color :=
  let 'RGB r g b := c in RGB (255 - r) (255 - g) (255 - b).

Definition solarize_color (threshold : number) (c : Color) : Color :=
  let 'RGB r g b := c in
  RGB (if py_lt r threshold then 255 - r else r)
      (if py_lt g threshold then 255 - g else g)
      (if py_lt b threshold then 255 - b else b).

Definition black_and_white_color (c : Color) : Color :=
  if brightness_of c <? 128 then RGB 0 0 0 else RGB 255 255 255.

Definition black_and_white_and_gray_color (c : Color) : Color :=
  if brightness_of c <? 85 then RGB 0 0 0
  else if brightness_of c <? 171 then RGB 128 128 128
  else RGB 255 255 255.

Definition extreme_contrast_color (c : Color) : Color :=
  let 'RGB r g b := c in
  RGB (if r <? 128 then 0 else 255) (if g <? 128 then 0 else 255)
      (if b <? 128 then 0 else 255).

Definition posterize_color (c : Color) : Color :=
  let 'RGB r g b := c in
  RGB (_adjust_component r) (_adjust_component g) (_adjust_component b).

(** ** What the neighbourhood and geometric filters store

    These filters loop over the interior coordinates only and write into a
    copy of the input, reading from the input itself. *)

(** [out] is [image] with the colour [val x y] at every interior [(x, y)]
    and the colours of [image] on the border. *)
Definition interior_rewrite (image out : Image) (val : Z -> Z -> Color) : Prop :=
  well_formed out /\ same_size out image /\
  (forall x y, (x, y) ∈ interior image -> pixel_at out x y = val x y) /\
  (forall x y, in_range image x y -> (x, y) ∉ interior image ->
     pixel_at out x y = pixel_at image x y).

Definition white : Color := RGB 255 255 255.
Definition black : Color := RGB 0 0 0.

Definition detect_edges_color (image : Image) (threshold : number) (x y : Z)
  : Color :=
  let contrast_check :=
    brightness_of (pixel_at image x y) - brightness_of (pixel_at image x (y + 1)) in
  if py_lt contrast_check threshold then white else black.

Definition detect_edges_better_color (image : Image) (threshold : number)
    (x y : Z) : Color :=
  let contrast_check_below :=
    brightness_of (pixel_at image x y) - brightness_of (pixel_at image x (y + 1)) in
  let contrast_check_right :=
    brightness_of (pixel_at image x y) - brightness_of (pixel_at image (x + 1) y) in
  if py_gt contrast_check_below threshold || py_gt contrast_check_right threshold
  then black else white.

(** The 3x3 window around [(x, y)]: the pixel and its eight neighbours. *)
Definition window (x y : Z) : list (Z * Z) :=
  [(x - 1, y - 1); (x, y - 1); (x + 1, y - 1);
   (x - 1, y);     (x, y);     (x + 1, y);
   (x - 1, y + 1); (x, y + 1); (x + 1, y + 1)].

Definition channel_sum (channel : Color -> Z) (image : Image) (ps : list (Z * Z))
  : Z :=
  foldr Z.add 0 ((fun p => channel (pixel_at image p.1 p.2)) <$> ps).

Definition blur_better_color (image : Image) (x y : Z) : Color :=
  RGB (channel_sum red image (window x y) `div` 9)
      (channel_sum green image (window x y) `div` 9)
      (channel_sum blue image (window x y) `div` 9).

(** The mirror images of a coordinate. *)
Definition mirror_x (image : Image) (p : Z * Z) : Z * Z :=
  (get_width image - (p.1 + 1), p.2).
Definition mirror_y (image : Image) (p : Z * Z) : Z * Z :=
  (p.1, get_height image - (p.2 + 1)).

(** ** What the float filters store *)

Definition gray_level (c : Color) : Z :=
  let 'RGB r g b := c in Float.truncate (luminance r g b).

Definition weighted_grayscale_color (c : Color) : Color :=
  let brightness := gray_level c in RGB brightness brightness brightness.

(** What the loop of [sepia_tint] stores for one colour. *)
Definition sepia_tint_color (c : Color) : Color :=
  let 'RGB r g b := c in
  if r <? 63 then
    RGB (Float.truncate (mul_int_float r Float.c_1_1)) g
        (Float.truncate (mul_int_float b Float.c_0_9))
  else if r <? 191 then
    RGB (Float.truncate (mul_int_float r Float.c_1_15)) g
        (Float.truncate (mul_int_float b Float.c_0_85))
  else
    RGB (Float.truncate (mul_int_float r Float.c_1_08)) g
        (Float.truncate (mul_int_float b Float.c_0_93)).

(** The largest product of a channel with a literal, in units. *)
Definition max_product (c : spec_float) : Z :=
  Float.units (mul_int_float 255 c).

Definition product_ok (c : spec_float) (z : Z) : bool :=
  Float.nonneg_finite (mul_int_float z c)
  && (Float.units (mul_int_float z c) <=? max_product c).

Definition channels : list Z := seqZ 0 256.

Definition sepia_literals : list spec_float :=
  [Float.c_1_1; Float.c_0_9; Float.c_1_15; Float.c_0_85;
   Float.c_1_08; Float.c_0_93].

(** ** Border and interior *)

Definition on_border (image : Image) (x y : Z) : Prop :=
  in_range image x y /\
  (x = 0 \/ x = get_width image - 1 \/ y = 0 \/ y = get_height image - 1).

Definition in_interior (image : Image) (x y : Z) : Prop :=
  (1 <= x < get_width image - 1) /\ (1 <= y < get_height image - 1).

(** ** The filters of the module, for statements about all of them *)

Definition point_filters (threshold : number) : list (Image -> result Image) :=
  [grayscale; weighted_grayscale; negative;
   (fun image => solarize image threshold);
   black_and_white; black_and_white_and_gray; extreme_contrast; sepia_tint;
   posterize].

Definition interior_filters (threshold : number)
  : list (Image -> result Image) :=
  [(fun image => detect_edges image threshold);
   (fun image => detect_edges_better image threshold);
   blur_better; flip_vertical; flip_horizontal].

Definition filters (threshold : number) : list (Image -> result Image) :=
  point_filters threshold ++ interior_filters threshold.

(** ** Sample grids *)

Definition sample_image : Image :=
  mkImage 4 4
    [RGB 0 0 0;       RGB 10 200 30;   RGB 255 255 255; RGB 64 128 192;
     RGB 12 34 56;    RGB 250 10 100;  RGB 90 90 90;    RGB 1 2 3;
     RGB 200 100 50;  RGB 33 66 99;    RGB 128 128 128; RGB 255 0 0;
     RGB 7 77 177;    RGB 0 255 0;     RGB 63 191 237;  RGB 85 171 84].

Definition mid_gray_image : Image := uniform_image 3 3 (RGB 128 128 128).

Definition white_pixel_image : Image := uniform_image 1 1 (RGB 255 255 255).

(** A grid of width 0 and height 3: it holds no pixel. *)
Definition empty_image : Image := mkImage 0 3 [].

(** A grid of two columns. *)
Definition narrow_image : Image :=
  mkImage 2 3 [RGB 1 2 3; RGB 4 5 6; RGB 7 8 9; RGB 10 11 12; RGB 13 14 15;
               RGB 16 17 18].

(** ** Rejection of empty grids *)

(** The reading under which a grid of width or height 0 is rejected: every
    filter raises on it.  The module has no such check. *)
Definition zero_dimensions_rejected : Prop :=
  forall threshold f g,
    f ∈ filters threshold -> valid_image g ->
    get_width g = 0 \/ get_height g = 0 -> raises (f g).

(** ** Vocabulary of the further properties *)

Definition all_channels (P : Z -> Prop) (c : Color) : Prop :=
  P (red c) /\ P (green c) /\ P (blue c).

(** A float threshold that is not a number. *)
Definition not_a_number : number := PyFloat S754_nan.

(** The filters that a caller can chain with [int] channels throughout:
    every filter but [sepia_tint]. *)
Definition in_gamut_filters (threshold : number)
  : list (Image -> result Image) :=
  [grayscale; weighted_grayscale; negative;
   (fun image => solarize image threshold);
   black_and_white; black_and_white_and_gray; extreme_contrast; posterize]
  ++ interior_filters threshold.

(** The two flips. *)
Definition flips : list (Image -> result Image) :=
  [flip_vertical; flip_horizontal].

(** The check of one gray value for the table of sepia tones: green is
    the gray value, blue <= green <= red <= 275, and red exceeds 255
    exactly from 238 up. *)
Definition sepia_tones_ok (v : Z) : bool :=
  let 'RGB r g b := sepia_tint_color (RGB v v v) in
  (g =? v) && (0 <=? b) && (b <=? v) && (v <=? r) && (r <=? 275)
  && (bool_decide (255 < r <-> 238 <= v)).

(** The coordinate of the pixel stored at an index of the buffer. *)
Definition coord_of (image : Image) (i : nat) : Z * Z :=
  (Z.of_nat i `mod` get_width image, Z.of_nat i `div` get_width image).

(** The index that the pixel at index [i] of a flipped grid comes from,
    for a flip that copies each interior colour to [mirror] of its
    coordinate. *)
Definition flip_source (mirror : Image -> Z * Z -> Z * Z) (image : Image)
    (i : nat) : nat :=
  if decide ((i < length (pixels image))%nat /\ coord_of image i ∈ interior image)
  then offset image (mirror image (coord_of image i)).1
                    (mirror image (coord_of image i)).2
  else i.

(** ** Comparisons and products in integer arithmetic *)

(** [c < t] as real numbers, for an integer [c] and a threshold [t]; a
    NaN is above nothing. *)
Definition threshold_above (t : number) (c : Z) : Prop :=
  match t with
  | PyInt z => c < z
  | PyFloat S754_nan => False
  | PyFloat (S754_infinity s) => s = false
  | PyFloat (S754_zero _) => c < 0
  | PyFloat (S754_finite s m e) =>
      let v := if s then Zneg m else Zpos m in
      if 0 <=? e then c < v * 2 ^ e else c * 2 ^ (- e) < v
  end.

(** [t < c] as real numbers; a NaN is below nothing. *)
Definition threshold_below (t : number) (c : Z) : Prop :=
  match t with
  | PyInt z => z < c
  | PyFloat S754_nan => False
  | PyFloat (S754_infinity s) => s = true
  | PyFloat (S754_zero _) => 0 < c
  | PyFloat (S754_finite s m e) =>
      let v := if s then Zneg m else Zpos m in
      if 0 <=? e then v * 2 ^ e < c else v < c * 2 ^ (- e)
  end.

(** The product of a channel with a weight of [num / 1000] is within
    [2 ^ -30] of the exact product. *)
Definition product_near (c : spec_float) (num z : Z) : bool :=
  Z.abs (1000 * Float.units (mul_int_float z c) - num * z * 2 ^ Float.scale)
  <=? 2 ^ (Float.scale - 30).

(** What [sepia_tint] stores for a gray value, in integer arithmetic: the
    floor of the exact product, except that the binary64 product falls
    just below an integer for 100 and 180 ([100 * 1.15] is
    114.99999999999999 and [180 * 1.15] is 206.99999999999997). *)
Definition sepia_tones (v : Z) : Color :=
  if v <? 63 then RGB ((11 * v) `div` 10) v ((9 * v) `div` 10)
  else if v <? 191 then
    RGB ((115 * v) `div` 100 - (if (v =? 100) || (v =? 180) then 1 else 0)) v
        ((85 * v) `div` 100)
  else RGB ((108 * v) `div` 100) v ((93 * v) `div` 100).

(** ** The accessors on well-formed images *)

Lemma in_bounds_true image x y :
  in_bounds image x y = true <-> in_range image x y.
Proof.
  unfold in_bounds, in_range.
  rewrite !andb_true_iff, !Z.leb_le, !Z.ltb_lt. lia.
Qed.

Lemma in_bounds_in_range image x y :
  in_range image x y -> in_bounds image x y = true.
Proof. apply in_bounds_true. Qed.

Lemma in_bounds_false image x y :
  ~ in_range image x y -> in_bounds image x y = false.
Proof.
  intros H. destruct (in_bounds image x y) eqn:E; [|done].
  by apply in_bounds_true in E.
Qed.

Lemma offset_lt image x y :
  well_formed image -> in_range image x y ->
  (offset image x y < length (pixels image))%nat.
Proof.
  intros (Hw & Hh & Hlen) [Hx Hy]. rewrite Hlen. unfold offset.
  apply Z2Nat.inj_lt; nia.
Qed.

Lemma offset_inj image x y x' y' :
  in_range image x y -> in_range image x' y' ->
  offset image x y = offset image x' y' -> x = x' /\ y = y'.
Proof.
  intros [Hx Hy] [Hx' Hy'] E. unfold offset in E.
  apply Z2Nat.inj in E; [|nia..].
  assert (y = y') by nia. subst. lia.
Qed.

Lemma get_color_ok image x y :
  well_formed image -> in_range image x y ->
  get_color image x y = Ok (pixel_at image x y).
Proof.
  intros Hwf Hr. unfold pixel_at, get_color.
  rewrite in_bounds_in_range by done.
  destruct (lookup_lt_is_Some_2 (pixels image) (offset image x y)) as [c ->];
    [by apply offset_lt | done].
Qed.

Lemma get_color_lookup image x y c :
  get_color image x y = Ok c -> pixels image !! offset image x y = Some c.
Proof.
  unfold get_color. destruct (in_bounds image x y); [|done].
  destruct (pixels image !! offset image x y); [|done]. by intros [= ->].
Qed.

Lemma pixel_at_lookup image x y :
  well_formed image -> in_range image x y ->
  pixels image !! offset image x y = Some (pixel_at image x y).
Proof. intros. by apply get_color_lookup, get_color_ok. Qed.

Lemma set_color_ok image x y c :
  in_range image x y -> set_color image x y c = Ok (put image x y c).
Proof. intros Hr. unfold set_color. by rewrite in_bounds_in_range. Qed.

Lemma set_color_raises image x y c :
  ~ in_range image x y -> set_color image x y c = Raise IndexError.
Proof. intros Hr. unfold set_color. by rewrite in_bounds_false. Qed.

Lemma put_same_size image x y c : same_size (put image x y c) image.
Proof. done. Qed.

Lemma put_well_formed image x y c :
  well_formed image -> well_formed (put image x y c).
Proof.
  intros (Hw & Hh & Hlen). unfold well_formed, put; simpl.
  by rewrite length_insert.
Qed.

Lemma in_range_same_size a b x y :
  same_size a b -> in_range a x y -> in_range b x y.
Proof. intros [Hw Hh]. unfold in_range. by rewrite Hw, Hh. Qed.

Lemma pixel_at_put_eq image x y c :
  well_formed image -> in_range image x y ->
  pixel_at (put image x y c) x y = c.
Proof.
  intros Hwf Hr. unfold pixel_at, get_color.
  rewrite in_bounds_in_range by done. unfold put at 1; simpl.
  change (offset (put image x y c) x y) with (offset image x y).
  by rewrite list_lookup_insert_eq by by apply offset_lt.
Qed.

Lemma pixel_at_put_ne image x y x' y' c :
  in_range image x y -> in_range image x' y' -> (x, y) <> (x', y') ->
  pixel_at (put image x y c) x' y' = pixel_at image x' y'.
Proof.
  intros Hr Hr' Hne. unfold pixel_at, get_color.
  change (in_bounds (put image x y c) x' y') with (in_bounds image x' y').
  change (offset (put image x y c) x' y') with (offset image x' y').
  unfold put; simpl. rewrite list_lookup_insert_ne; [done|].
  intros E. apply offset_inj in E as [-> ->]; done.
Qed.

(** Two well-formed images of one size that hold the same colour at every
    coordinate are equal. *)
Lemma image_ext a b :
  well_formed a -> well_formed b -> same_size a b ->
  (forall x y, in_range a x y -> pixel_at a x y = pixel_at b x y) ->
  a = b.
Proof.
  intros Ha Hb [Hw Hh] Hpix.
  destruct a as [w h pa], b as [w' h' pb]; simpl in *; subst w' h'.
  f_equal. apply list_eq. intros i.
  destruct Ha as (Hw & Hh & Hla), Hb as (_ & _ & Hlb); simpl in *.
  destruct (decide (i < Z.to_nat (w * h))%nat) as [Hi|Hi].
  - assert (0 < w) by nia.
    set (x := Z.of_nat i `mod` w). set (y := Z.of_nat i `div` w).
    assert (Hx : 0 <= x < w) by (apply Z.mod_pos_bound; lia).
    assert (Hdm : Z.of_nat i = w * y + x) by (apply Z.div_mod; lia).
    assert (Hy : 0 <= y < h) by nia.
    assert (Hoff : forall p, offset (mkImage w h p) x y = i).
    { intros p. unfold offset; simpl. lia. }
    specialize (Hpix x y (conj Hx Hy)).
    rewrite <- (Hoff pa) at 1. rewrite <- (Hoff pb).
    rewrite !pixel_at_lookup; try done; by f_equal.
  - rewrite !lookup_ge_None_2; [done|lia..].
Qed.

(** ** Loops *)

Lemma elem_of_range k lo hi : k ∈ range lo hi <-> lo <= k < hi.
Proof. unfold range. rewrite elem_of_seqZ. lia. Qed.

Lemma range_empty lo hi : hi <= lo -> range lo hi = [].
Proof. intros. unfold range. apply seqZ_nil. lia. Qed.

Lemma elem_of_grid ys xs x y : (x, y) ∈ grid ys xs <-> x ∈ xs /\ y ∈ ys.
Proof.
  unfold grid. rewrite list_elem_of_bind. split.
  - intros (y' & Hin & Hy). apply list_elem_of_bind in Hin as (x' & Hin & Hx).
    apply list_elem_of_singleton in Hin as [= -> ->]. done.
  - intros [Hx Hy]. exists y. split; [|done].
    apply list_elem_of_bind. exists x. split; [|done].
    by apply list_elem_of_singleton.
Qed.

Lemma NoDup_grid ys xs : NoDup ys -> NoDup xs -> NoDup (grid ys xs).
Proof.
  intros Hys Hxs. unfold grid. apply NoDup_bind; [| |done].
  - intros y1 y2 [x y] _ _ H1 H2.
    apply list_elem_of_bind in H1 as (? & H1 & _).
    apply list_elem_of_bind in H2 as (? & H2 & _).
    apply list_elem_of_singleton in H1, H2. congruence.
  - intros y _. apply NoDup_bind; [| |done].
    + intros x1 x2 p _ _ H1 H2.
      apply list_elem_of_singleton in H1, H2. congruence.
    + intros. apply NoDup_singleton.
Qed.

Lemma elem_of_coords image x y : (x, y) ∈ coords image <-> in_range image x y.
Proof.
  unfold coords. fold (grid (range 0 (get_height image)) (range 0 (get_width image))).
  rewrite elem_of_grid, !elem_of_range. done.
Qed.

Lemma NoDup_coords image : NoDup (coords image).
Proof. apply NoDup_grid; apply NoDup_seqZ. Qed.

Lemma elem_of_interior image x y :
  (x, y) ∈ interior image <->
  (1 <= x < get_width image - 1) /\ (1 <= y < get_height image - 1).
Proof. unfold interior. rewrite elem_of_grid, !elem_of_range. done. Qed.

Lemma NoDup_interior image : NoDup (interior image).
Proof. apply NoDup_grid; apply NoDup_seqZ. Qed.

Lemma interior_in_range image x y :
  (x, y) ∈ interior image -> in_range image x y.
Proof. rewrite elem_of_interior. unfold in_range. lia. Qed.

Section for_each.
Context {A S : Type}.
Implicit Types (l : list A) (body : A -> S -> result S) (s : S).

Lemma for_each_app l1 l2 body s :
  for_each (l1 ++ l2) body s = s' ← for_each l1 body s; for_each l2 body s'.
Proof.
  revert s. induction l1 as [|a l1 IH]; intros s; simpl; [done|].
  destruct (body a s); simpl; [apply IH | done].
Qed.

Lemma for_each_ext l body body' s :
  (forall a s', a ∈ l -> body a s' = body' a s') ->
  for_each l body s = for_each l body' s.
Proof.
  revert s. induction l as [|a l IH]; intros s H; simpl; [done|].
  rewrite H by left. destruct (body' a s); simpl; [|done].
  apply IH. intros. apply H. by right.
Qed.
End for_each.

(** Two nested loops run their body over the grid of the two ranges, row
    by row. *)
Lemma for_each_nested {S} (ys xs : list Z) (body : Z -> Z -> S -> result S) s :
  for_each ys (fun y s => for_each xs (fun x s => body x y s) s) s
  = for_each (grid ys xs) (fun '(x, y) s => body x y s) s.
Proof.
  revert s. induction ys as [|y ys IH]; intros s; [done|].
  change (grid (y :: ys) xs) with ((x ← xs; [(x, y)]) ++ grid ys xs).
  rewrite for_each_app. simpl.
  assert (E : forall s0, for_each xs (fun x s1 => body x y s1) s0
              = for_each (x ← xs; [(x, y)]) (fun '(x, y) s1 => body x y s1) s0).
  { clear. induction xs as [|x xs IHx]; intros s0; [done|]. simpl.
    destruct (body x y s0); simpl; [apply IHx | done]. }
  rewrite <- E. destruct (for_each xs _ s); simpl; [apply IH | done].
Qed.

(** A loop that writes, for each element [p] of a list, the colour [val p]
  at the coordinate [tgt p], all coordinates distinct and in range. *)
Section write_loop.
Context {A : Type} (tgt : A -> Z * Z) (val : A -> Color).

Lemma for_each_writes (l : list A) body image :
  well_formed image ->
  NoDup (tgt <$> l) ->
  (forall p, p ∈ l -> in_range image (tgt p).1 (tgt p).2) ->
  (forall p s, p ∈ l -> same_size s image ->
     body p s = set_color s (tgt p).1 (tgt p).2 (val p)) ->
  exists out,
    for_each l body image = Ok out /\ well_formed out /\ same_size out image /\
    (forall p, p ∈ l -> pixel_at out (tgt p).1 (tgt p).2 = val p) /\
    (forall x y, in_range image x y -> (x, y) ∉ tgt <$> l ->
       pixel_at out x y = pixel_at image x y).
Proof.
  revert image. induction l as [|p l IH]; intros image Hwf Hnd Hr Hbody.
  { exists image. do 3 (split; [done|]). split; [|done].
    intros p Hp. inversion Hp. }
  rewrite fmap_cons in Hnd. apply NoDup_cons in Hnd as [Hp Hnd].
  assert (Hrp : in_range image (tgt p).1 (tgt p).2) by (apply Hr; left).
  set (img1 := put image (tgt p).1 (tgt p).2 (val p)).
  destruct (IH img1) as (out & Hrun & Hwf' & [Hw Hh] & Hin & Hout).
  - by apply put_well_formed.
  - done.
  - intros q Hq. apply (in_range_same_size image); [done|]. apply Hr. by right.
  - intros q s Hq Hs. apply Hbody; [by right | done].
  - exists out. split; [|split; [done|split; [done|split]]].
    + simpl. rewrite Hbody; [|left|done]. by rewrite set_color_ok.
    + intros q [->|Hq]%elem_of_cons; [|by apply Hin].
      rewrite Hout; [by apply pixel_at_put_eq| done |].
      by destruct (tgt p).
    + intros x y Hxy Hnot. rewrite fmap_cons in Hnot.
      apply not_elem_of_cons in Hnot as [Hne Hnot].
      rewrite Hout; [|done..]. apply pixel_at_put_ne; try done.
      destruct (tgt p); simpl. congruence.
Qed.
End write_loop.

(** A loop that replaces, for each coordinate of a list, the colour it
    reads at that coordinate of the image it is updating. *)
Lemma for_each_in_place (f : Color -> result Color) (g : Color -> Color)
    (l : list (Z * Z)) image :
  well_formed image ->
  NoDup l ->
  (forall x y, (x, y) ∈ l -> in_range image x y) ->
  (forall x y, (x, y) ∈ l -> f (pixel_at image x y) = Ok (g (pixel_at image x y))) ->
  exists out,
    for_each l (fun '(x, y) s =>
      c ← get_color s x y; c' ← f c; set_color s x y c') image = Ok out /\
    well_formed out /\ same_size out image /\
    (forall x y, (x, y) ∈ l -> pixel_at out x y = g (pixel_at image x y)) /\
    (forall x y, in_range image x y -> (x, y) ∉ l ->
       pixel_at out x y = pixel_at image x y).
Proof.
  revert image. induction l as [|[x0 y0] l IH]; intros image Hwf Hnd Hr Hf.
  { exists image. do 3 (split; [done|]). split; [|done].
    intros x y Hp. inversion Hp. }
  apply NoDup_cons in Hnd as [Hp Hnd].
  assert (Hr0 : in_range image x0 y0) by (apply Hr; left).
  set (img1 := put image x0 y0 (g (pixel_at image x0 y0))).
  assert (Hsame : forall x y, (x, y) ∈ l -> pixel_at img1 x y = pixel_at image x y).
  { intros x y Hq. apply pixel_at_put_ne; [done | apply Hr; by right |].
    intros [= -> ->]. done. }
  destruct (IH img1) as (out & Hrun & Hwf' & Hsz & Hin & Hout).
  - by apply put_well_formed.
  - done.
  - intros x y Hq. apply (in_range_same_size image); [done|]. apply Hr. by right.
  - intros x y Hq. rewrite Hsame by done. apply Hf. by right.
  - exists out. split; [|split; [done|split; [done|split]]].
    + simpl. rewrite get_color_ok by done. simpl.
      rewrite Hf by left. simpl. by rewrite set_color_ok.
    + intros x y [[= -> ->]|Hq]%elem_of_cons.
      * rewrite Hout by done. by apply pixel_at_put_eq.
      * rewrite Hin by done. by rewrite Hsame.
    + intros x y Hxy Hnot. apply not_elem_of_cons in Hnot as [Hne Hnot].
      rewrite Hout by done. apply pixel_at_put_ne; first [done | congruence].
Qed.

(** ** Point filters

    Every point filter but [sepia_tint] reads each colour of the input and
    writes a function of it at the same coordinate of the copy. *)

Lemma map_image_well_formed g image :
  well_formed image -> well_formed (map_image g image).
Proof.
  intros (Hw & Hh & Hlen). unfold well_formed, map_image; simpl.
  by rewrite length_fmap.
Qed.

Lemma pixel_at_map_image g image x y :
  well_formed image -> in_range image x y ->
  pixel_at (map_image g image) x y = g (pixel_at image x y).
Proof.
  intros Hwf Hr. unfold pixel_at at 1. unfold get_color.
  change (in_bounds (map_image g image) x y) with (in_bounds image x y).
  change (offset (map_image g image) x y) with (offset image x y).
  rewrite in_bounds_in_range by done. simpl.
  by rewrite list_lookup_fmap, pixel_at_lookup.
Qed.

Lemma get_color_map_image g image x y c :
  get_color image x y = Ok c -> get_color (map_image g image) x y = Ok (g c).
Proof.
  unfold get_color.
  change (in_bounds (map_image g image) x y) with (in_bounds image x y).
  change (offset (map_image g image) x y) with (offset image x y).
  destruct (in_bounds image x y); [|done]. cbn. rewrite list_lookup_fmap.
  destruct (pixels image !! offset image x y); [|done]. by intros [= ->].
Qed.

Lemma pixel_at_elem_of image x y :
  well_formed image -> in_range image x y -> pixel_at image x y ∈ pixels image.
Proof.
  intros Hwf Hr. apply list_elem_of_lookup. eexists. by apply pixel_at_lookup.
Qed.

Lemma point_loop_ok body g image :
  well_formed image ->
  (forall x y s, in_range image x y -> same_size s image ->
     body (x, y) s = set_color s x y (g (pixel_at image x y))) ->
  for_each (coords image) body image = Ok (map_image g image).
Proof.
  intros Hwf Hbody.
  destruct (for_each_writes (fun p => p) (fun p => g (pixel_at image p.1 p.2))
              (coords image) body image)
    as (out & Hrun & Hwf' & Hsz & Hin & _).
  - done.
  - rewrite list_fmap_id. apply NoDup_coords.
  - intros [x y] Hp. by apply elem_of_coords.
  - intros [x y] s Hp%elem_of_coords Hs. by apply Hbody.
  - rewrite Hrun. f_equal. apply image_ext; try done.
    + by apply map_image_well_formed.
    + intros x y Hr. apply (in_range_same_size _ image) in Hr; [|done].
      specialize (Hin (x, y)); simpl in Hin.
      rewrite Hin by by apply elem_of_coords.
      by rewrite pixel_at_map_image.
Qed.

(** The examples of the docstring of [_adjust_component]. *)
Remark _adjust_component_doctests :
  _adjust_component 10 = 31 /\ _adjust_component 85 = 95 /\
  _adjust_component 142 = 159 /\ _adjust_component 230 = 223.
Proof. done. Qed.

Ltac point_filter :=
  let x := fresh "x" in let y := fresh "y" in let s := fresh "s" in
  let Hr := fresh "Hr" in
  intros Hwf; apply point_loop_ok; [exact Hwf|];
  intros x y s Hr _; rewrite (get_color_ok _ _ _ Hwf Hr);
  destruct (pixel_at _ x y); simpl.

Lemma grayscale_ok image :
  well_formed image -> grayscale image = Ok (map_image grayscale_color image).
Proof. point_filter. done. Qed.

Lemma negative_ok image :
  well_formed image -> negative image = Ok (map_image negative_color image).
Proof. point_filter. done. Qed.

Lemma solarize_ok image threshold :
  well_formed image ->
  solarize image threshold = Ok (map_image (solarize_color threshold) image).
Proof. point_filter. done. Qed.

Lemma black_and_white_ok image :
  well_formed image ->
  black_and_white image = Ok (map_image black_and_white_color image).
Proof.
  point_filter. unfold black_and_white_color; simpl. by case_match.
Qed.

Lemma black_and_white_and_gray_ok image :
  well_formed image ->
  black_and_white_and_gray image
  = Ok (map_image black_and_white_and_gray_color image).
Proof.
  point_filter. unfold black_and_white_and_gray_color; simpl.
  by repeat case_match.
Qed.

Lemma extreme_contrast_ok image :
  well_formed image ->
  extreme_contrast image = Ok (map_image extreme_contrast_color image).
Proof. point_filter. done. Qed.

Lemma posterize_ok image :
  well_formed image -> posterize image = Ok (map_image posterize_color image).
Proof. point_filter. done. Qed.

(** ** Neighbourhood and geometric filters

    These filters loop over the interior coordinates only and write into a
    copy of the input, reading from the input itself. *)

Lemma interior_loop_ok (body : Z -> Z -> Image -> result Image) val image :
  well_formed image ->
  (forall x y s, (x, y) ∈ interior image -> same_size s image ->
     body x y s = set_color s x y (val x y)) ->
  exists out,
    for_each (range 1 (get_height image - 1)) (fun y s =>
      for_each (range 1 (get_width image - 1)) (fun x s => body x y s) s) image
    = Ok out /\ interior_rewrite image out val.
Proof.
  intros Hwf Hbody. rewrite for_each_nested. fold (interior image).
  destruct (for_each_writes (fun p => p) (fun p => val p.1 p.2)
              (interior image) (fun '(x, y) s => body x y s) image)
    as (out & Hrun & Hwf' & Hsz & Hin & Hout).
  - done.
  - rewrite list_fmap_id. apply NoDup_interior.
  - intros [x y] Hp. by apply interior_in_range.
  - intros [x y] s Hp Hs. by apply Hbody.
  - exists out. split; [done|]. split; [done|]. split; [done|]. split.
    + intros x y Hp. apply (Hin (x, y) Hp).
    + intros x y Hr Hp. apply Hout; [done|]. by rewrite list_fmap_id.
Qed.

Lemma neighbours_in_range image x y x' y' :
  (x, y) ∈ interior image -> x - 1 <= x' <= x + 1 -> y - 1 <= y' <= y + 1 ->
  in_range image x' y'.
Proof. rewrite elem_of_interior. unfold in_range. lia. Qed.

Ltac read_neighbour Hwf Hp x' y' :=
  rewrite (get_color_ok _ x' y' Hwf
             (neighbours_in_range _ _ _ x' y' Hp ltac:(lia) ltac:(lia))).

Lemma detect_edges_ok image threshold :
  well_formed image ->
  exists out,
    detect_edges image threshold = Ok out /\
    interior_rewrite image out (detect_edges_color image threshold).
Proof.
  intros Hwf. apply interior_loop_ok; [done|]. intros x y s Hp _.
  read_neighbour Hwf Hp x y. read_neighbour Hwf Hp x (y + 1).
  unfold detect_edges_color.
  destruct (pixel_at image x y), (pixel_at image x (y + 1)); simpl.
  by case_match.
Qed.

Lemma detect_edges_better_ok image threshold :
  well_formed image ->
  exists out,
    detect_edges_better image threshold = Ok out /\
    interior_rewrite image out (detect_edges_better_color image threshold).
Proof.
  intros Hwf. apply interior_loop_ok; [done|]. intros x y s Hp _.
  read_neighbour Hwf Hp x y. read_neighbour Hwf Hp x (y + 1).
  read_neighbour Hwf Hp (x + 1) y.
  unfold detect_edges_better_color.
  destruct (pixel_at image x y), (pixel_at image x (y + 1)),
    (pixel_at image (x + 1) y); simpl.
  by case_match.
Qed.

Lemma blur_better_ok image :
  well_formed image ->
  exists out,
    blur_better image = Ok out /\
    interior_rewrite image out (blur_better_color image).
Proof.
  intros Hwf. apply interior_loop_ok; [done|]. intros x y s Hp _.
  read_neighbour Hwf Hp x (y - 1). read_neighbour Hwf Hp (x - 1) y.
  read_neighbour Hwf Hp x (y + 1). read_neighbour Hwf Hp (x + 1) y.
  read_neighbour Hwf Hp x y. read_neighbour Hwf Hp (x + 1) (y - 1).
  read_neighbour Hwf Hp (x - 1) (y - 1). read_neighbour Hwf Hp (x + 1) (y + 1).
  read_neighbour Hwf Hp (x - 1) (y + 1).
  unfold blur_better_color, channel_sum, window; simpl.
  destruct (pixel_at image x (y - 1)), (pixel_at image (x - 1) y),
    (pixel_at image x (y + 1)), (pixel_at image (x + 1) y),
    (pixel_at image x y), (pixel_at image (x + 1) (y - 1)),
    (pixel_at image (x - 1) (y - 1)), (pixel_at image (x + 1) (y + 1)),
    (pixel_at image (x - 1) (y + 1)); simpl.
  do 2 f_equal; f_equal; lia.
Qed.

#[global] Instance mirror_x_inj image : Inj (=) (=) (mirror_x image).
Proof. intros [x y] [x' y'] [= ? ?]. f_equal; lia. Qed.
#[global] Instance mirror_y_inj image : Inj (=) (=) (mirror_y image).
Proof. intros [x y] [x' y'] [= ? ?]. f_equal; lia. Qed.

Lemma mirror_x_interior image p :
  p ∈ interior image <-> mirror_x image p ∈ interior image.
Proof. destruct p as [x y]. unfold mirror_x. rewrite !elem_of_interior. simpl. lia. Qed.

Lemma mirror_y_interior image p :
  p ∈ interior image <-> mirror_y image p ∈ interior image.
Proof. destruct p as [x y]. unfold mirror_y. rewrite !elem_of_interior. simpl. lia. Qed.

Lemma mirror_x_involutive image p : mirror_x image (mirror_x image p) = p.
Proof. destruct p as [x y]. unfold mirror_x; simpl. f_equal. lia. Qed.

Lemma mirror_y_involutive image p : mirror_y image (mirror_y image p) = p.
Proof. destruct p as [x y]. unfold mirror_y; simpl. f_equal. lia. Qed.

(** A loop over the interior that writes the colour read at [(x, y)] to a
    mirror image of [(x, y)]. *)
Lemma mirror_loop_ok (mirror : Z * Z -> Z * Z) `{!Inj (=) (=) mirror}
    (body : Z -> Z -> Image -> result Image) image :
  well_formed image ->
  (forall p, p ∈ interior image <-> mirror p ∈ interior image) ->
  (forall p, mirror (mirror p) = p) ->
  (forall x y s, (x, y) ∈ interior image -> same_size s image ->
     body x y s
     = set_color s (mirror (x, y)).1 (mirror (x, y)).2 (pixel_at image x y)) ->
  exists out,
    for_each (range 1 (get_height image - 1)) (fun y s =>
      for_each (range 1 (get_width image - 1)) (fun x s => body x y s) s) image
    = Ok out /\
    interior_rewrite image out (fun x y =>
      pixel_at image (mirror (x, y)).1 (mirror (x, y)).2).
Proof.
  intros Hwf Hint Hinv Hbody. rewrite for_each_nested. fold (interior image).
  destruct (for_each_writes mirror (fun p => pixel_at image p.1 p.2)
              (interior image) (fun '(x, y) s => body x y s) image)
    as (out & Hrun & Hwf' & Hsz & Hin & Hout).
  - done.
  - apply NoDup_fmap_2; [done | apply NoDup_interior].
  - intros p Hp%Hint. destruct (mirror p). by apply interior_in_range.
  - intros [x y] s Hp Hs. by apply Hbody.
  - exists out. split; [done|]. split; [done|]. split; [done|]. split.
    + intros x y Hp%Hint. specialize (Hin _ Hp). by rewrite Hinv in Hin.
    + intros x y Hr Hp. apply Hout; [done|].
      intros (q & Hq & Hqi)%list_elem_of_fmap. apply Hp. rewrite Hq. by apply (proj1 (Hint q)).
Qed.

Lemma flip_vertical_ok image :
  well_formed image ->
  exists out,
    flip_vertical image = Ok out /\
    interior_rewrite image out (fun x y =>
      pixel_at image (get_width image - (x + 1)) y).
Proof.
  intros Hwf.
  apply (mirror_loop_ok (mirror_x image)
           (fun x y s => col ← get_color image x y;
                         set_color s (get_width image - (x + 1)) y col));
    [done | apply mirror_x_interior | apply mirror_x_involutive |].
  intros x y s Hp _.
  by rewrite (get_color_ok _ _ _ Hwf (interior_in_range _ _ _ Hp)).
Qed.

Lemma flip_horizontal_ok image :
  well_formed image ->
  exists out,
    flip_horizontal image = Ok out /\
    interior_rewrite image out (fun x y =>
      pixel_at image x (get_height image - (y + 1))).
Proof.
  intros Hwf.
  apply (mirror_loop_ok (mirror_y image)
           (fun x y s => col ← get_color image x y;
                         set_color s x (get_height image - (y + 1)) col));
    [done | apply mirror_y_interior | apply mirror_y_involutive |].
  intros x y s Hp _.
  by rewrite (get_color_ok _ _ _ Hwf (interior_in_range _ _ _ Hp)).
Qed.

(** ** Rounding in binary64

    The sums of [weighted_grayscale] are too many to enumerate, so the
    bound on the luminance comes from a bound on what one rounding can add
    to a positive value. *)

Section rounding.
Import Float.

Lemma digits2_pos_bounds (m : positive) :
  2 ^ (Zpos (digits2_pos m) - 1) <= Zpos m < 2 ^ Zpos (digits2_pos m).
Proof.
  induction m as [m IH|m IH|]; simpl digits2_pos; [| |simpl; lia].
  all: rewrite Pos2Z.inj_succ;
    replace (Z.succ (Zpos (digits2_pos m)) - 1) with (Z.succ (Zpos (digits2_pos m) - 1)) by lia;
    rewrite !Z.pow_succ_r by lia; lia.
Qed.

Lemma shr_1_m mrs : 0 <= shr_m mrs -> shr_m (shr_1 mrs) = shr_m mrs `div` 2.
Proof.
  destruct mrs as [m r s]; cbn [shr_m]. intros Hm.
  destruct m as [|[p|p|]|p]; cbn [shr_1 shr_m]; try done.
  - apply Z.div_unique with 1; lia.
  - apply Z.div_unique with 0; lia.
Qed.

Lemma iter_shr_1_m p mrs :
  0 <= shr_m mrs ->
  shr_m (SpecFloat.iter_pos shr_1 p mrs) = shr_m mrs `div` 2 ^ Zpos p.
Proof.
  revert mrs. induction p as [p IH|p IH|]; intros mrs Hm; simpl SpecFloat.iter_pos.
  - assert (H1 : 0 <= shr_m (shr_1 mrs)).
    { rewrite shr_1_m by done. apply Z.div_pos; lia. }
    assert (H2 : 0 <= shr_m (SpecFloat.iter_pos shr_1 p (shr_1 mrs))).
    { rewrite IH by done. apply Z.div_pos; lia. }
    rewrite IH, IH, shr_1_m by done.
    rewrite !Z.div_div by lia. f_equal.
    change (Z.pos p~1) with (2 * Z.pos p + 1).
    replace (2 * Z.pos p + 1) with (1 + Z.pos p + Z.pos p) by lia.
    rewrite !Z.pow_add_r by lia. lia.
  - assert (H2 : 0 <= shr_m (SpecFloat.iter_pos shr_1 p mrs)).
    { rewrite IH by done. apply Z.div_pos; lia. }
    rewrite IH, IH by done.
    rewrite !Z.div_div by lia. f_equal.
    change (Z.pos p~0) with (2 * Z.pos p).
    replace (2 * Z.pos p) with (Z.pos p + Z.pos p) by lia.
    rewrite !Z.pow_add_r by lia. lia.
  - rewrite shr_1_m by done. done.
Qed.

Lemma shr_record_of_loc_m m l : shr_m (shr_record_of_loc m l) = m.
Proof. by destruct l as [|[]]. Qed.

Lemma loc_of_shr_record_of_loc m l :
  loc_of_shr_record (shr_record_of_loc m l) = l.
Proof. by destruct l as [|[]]. Qed.

Lemma round_nearest_even_bounds m l :
  m <= round_nearest_even m l <= m + 1.
Proof.
  destruct l as [|[]]; simpl; try lia. destruct (Z.even m); lia.
Qed.

Lemma fexp_eq k : fexp prec emax k = Z.max (k - 53) (- scale).
Proof. done. Qed.

Lemma shr_fexp_cases m e l :
  0 <= m ->
  let n := fexp prec emax (Zdigits2 m + e) - e in
  (n <= 0 /\ shr_fexp prec emax m e l = (shr_record_of_loc m l, e)) \/
  (0 < n /\ exists mrs',
      shr_fexp prec emax m e l = (mrs', e + n) /\
      shr_m mrs' = m `div` 2 ^ n).
Proof.
  intros Hm n. unfold shr_fexp. fold n. destruct n as [|p|p] eqn:En.
  - left. done.
  - right. split; [lia|]. eexists. split; [done|].
    rewrite iter_shr_1_m; by rewrite shr_record_of_loc_m.
  - left. split; [lia|done].
Qed.

Lemma units_split a b : 0 <= a -> 0 <= b + scale ->
  2 ^ (b + a + scale) = 2 ^ a * 2 ^ (b + scale).
Proof.
  intros. replace (b + a + scale) with (a + (b + scale)) by lia.
  by apply Z.pow_add_r.
Qed.

(** Rounding a positive value below [2 ^ B] gives zero or a positive
    finite float, at most one unit in the last place above the value. *)
Lemma binary_round_aux_bound (m : positive) (e B : Z) :
  - scale <= e -> - 1021 <= B <= 900 ->
  Zpos m * 2 ^ (e + scale) < 2 ^ (B + scale) ->
  nonneg_finite (binary_round_aux prec emax false (Zpos m) e loc_Exact) = true /\
  units (binary_round_aux prec emax false (Zpos m) e loc_Exact)
    <= Zpos m * 2 ^ (e + scale) + 2 ^ (B - 53 + scale).
Proof.
  intros He HB HV.
  pose proof (digits2_pos_bounds m) as [Hd1 Hd2].
  set (d := Zpos (digits2_pos m)) in *.
  assert (Hd : 1 <= d) by (unfold d; lia).
  assert (HU : 0 < 2 ^ (e + scale)) by (apply Z.pow_pos_nonneg; lia).
  assert (HE : 0 < 2 ^ (B - 53 + scale)) by (apply Z.pow_pos_nonneg; unfold scale; lia).
  assert (Hde : d + e <= B).
  { assert (2 ^ (d - 1 + (e + scale)) < 2 ^ (B + scale)) as Hlt.
    { rewrite Z.pow_add_r by lia. nia. }
    apply Z.pow_lt_mono_r_iff in Hlt; unfold scale in *; lia. }
  assert (HeB : e < B) by lia.
  unfold binary_round_aux.
  destruct (shr_fexp_cases (Zpos m) e loc_Exact ltac:(lia))
    as [[Hn ->] | (Hn & mrs' & -> & Hm1)].
  - (* no shift: the result is exact *)
    rewrite shr_record_of_loc_m, loc_of_shr_record_of_loc. cbn [round_nearest_even].
    destruct (shr_fexp_cases (Zpos m) e loc_Exact ltac:(lia))
      as [[_ ->] | (Hn' & _)]; [|lia].
    rewrite shr_record_of_loc_m.
    replace (e <=? emax - prec) with true
      by (symmetry; apply Z.leb_le; unfold emax, prec; lia).
    cbn [nonneg_finite units negb andb].
    split; [apply Z.leb_le; lia | lia].
  - (* the mantissa is shifted right and rounded *)
    cbn [Zdigits2] in Hn, Hm1. fold d in Hn, Hm1. rewrite fexp_eq in Hn, Hm1.
    cbn [Zdigits2]. fold d. rewrite fexp_eq.
    set (n := Z.max (d + e - 53) (- scale) - e) in *.
    set (e' := e + n).
    assert (He' : e' <= B - 53) by (unfold e', n, scale in *; lia).
    assert (Hpn : 0 < 2 ^ n) by (apply Z.pow_pos_nonneg; lia).
    set (m1 := shr_m mrs') in *.
    assert (Hm1' : 0 <= m1 /\ m1 * 2 ^ n <= Zpos m).
    { rewrite Hm1. split; [apply Z.div_pos; lia|].
      rewrite Z.mul_comm. apply Z.mul_div_le. lia. }
    pose proof (round_nearest_even_bounds m1 (loc_of_shr_record mrs')) as Hm2.
    set (m2 := round_nearest_even m1 (loc_of_shr_record mrs')) in *.
    assert (HU' : 2 ^ (e' + scale) = 2 ^ n * 2 ^ (e + scale))
      by (unfold e'; apply units_split; lia).
    assert (HU'E : 2 ^ (e' + scale) <= 2 ^ (B - 53 + scale))
      by (apply Z.pow_le_mono_r; lia).
    assert (Hbound : m2 * 2 ^ (e' + scale)
                     <= Zpos m * 2 ^ (e + scale) + 2 ^ (B - 53 + scale)) by nia.
    destruct (shr_fexp_cases m2 e' loc_Exact ltac:(lia))
      as [[Hn2 ->] | (Hn2 & mrs'' & -> & Hm3)].
    + rewrite shr_record_of_loc_m.
      destruct m2 as [|q|q] eqn:Eq;
        [split; [done | cbn [units]; lia] | | lia].
      replace (e' <=? emax - prec) with true
        by (symmetry; apply Z.leb_le; unfold emax, prec; lia).
      cbn [nonneg_finite units negb andb].
      split; [apply Z.leb_le; unfold e'; lia | lia].
    + rewrite fexp_eq in Hn2, Hm3. rewrite fexp_eq.
      set (n2 := Z.max (Zdigits2 m2 + e' - 53) (- scale) - e') in *.
      assert (Hpn2 : 0 < 2 ^ n2) by (apply Z.pow_pos_nonneg; lia).
      assert (Hm3' : 0 <= shr_m mrs'' /\ shr_m mrs'' * 2 ^ n2 <= m2).
      { rewrite Hm3. split; [apply Z.div_pos; lia|].
        rewrite Z.mul_comm. apply Z.mul_div_le. lia. }
      assert (HU'' : 2 ^ (e' + n2 + scale) = 2 ^ n2 * 2 ^ (e' + scale))
        by (apply units_split; unfold e', scale in *; lia).
      assert (Hd2e : Zdigits2 m2 + e' <= B + 1).
      { destruct m2 as [|q|q] eqn:Eq; [unfold scale in *; simpl in *; lia| |lia].
        pose proof (digits2_pos_bounds q) as [Hq1 _]. cbn [Zdigits2].
        assert (2 ^ (Zpos (digits2_pos q) - 1 + (e' + scale)) < 2 ^ (B + 1 + scale)) as Hlt.
        { rewrite Z.pow_add_r by (unfold e', scale in *; lia).
          replace (B + 1 + scale) with (1 + (B + scale)) by lia.
          rewrite (Z.pow_add_r 2 1) by (unfold scale; lia).
          assert (2 ^ (B - 53 + scale) <= 2 ^ (B + scale))
            by (apply Z.pow_le_mono_r; unfold scale; lia).
          assert (0 < 2 ^ (e' + scale))
            by (apply Z.pow_pos_nonneg; unfold e', scale in *; lia).
          nia. }
        apply Z.pow_lt_mono_r_iff in Hlt; unfold scale in *; lia. }
      destruct (shr_m mrs'') as [|q|q] eqn:Eq;
        [split; [done | cbn [units]; lia] | | lia].
      replace (e' + n2 <=? emax - prec) with true
        by (symmetry; apply Z.leb_le; unfold emax, prec, n2, scale in *; lia).
      cbn [nonneg_finite units negb andb].
      split; [apply Z.leb_le; unfold e'; lia | nia].
Qed.

Lemma shl_align_spec mx ex ex' :
  (shl_align mx ex ex').2 = Z.min ex ex' /\
  Zpos (shl_align mx ex ex').1 = Zpos mx * 2 ^ (ex - Z.min ex ex').
Proof.
  unfold shl_align. destruct (ex' - ex) as [|p|p] eqn:E; cbn [fst snd].
  - replace (Z.min ex ex') with ex by lia. rewrite Z.sub_diag. lia.
  - replace (Z.min ex ex') with ex by lia. rewrite Z.sub_diag. lia.
  - replace (Z.min ex ex') with ex' by lia. split; [done|].
    replace (ex - ex') with (Zpos p) by lia.
    change (Pos.iter xO mx p) with (shift_pos p mx).
    rewrite shift_pos_correct.
    change (Z.pow_pos 2 p) with (2 ^ Zpos p). lia.
Qed.

Lemma shl_align_units mx ex ex' :
  - scale <= ex -> - scale <= ex' ->
  Zpos (shl_align mx ex ex').1 * 2 ^ ((shl_align mx ex ex').2 + scale)
  = Zpos mx * 2 ^ (ex + scale).
Proof.
  intros Hex Hex'. destruct (shl_align_spec mx ex ex') as [-> ->].
  rewrite <- Z.mul_assoc, <- Z.pow_add_r by lia. f_equal. f_equal. lia.
Qed.

Lemma binary_round_bound (m : positive) (e B : Z) :
  - scale <= e -> - 1021 <= B <= 900 ->
  Zpos m * 2 ^ (e + scale) < 2 ^ (B + scale) ->
  nonneg_finite (binary_round prec emax false m e) = true /\
  units (binary_round prec emax false m e)
    <= Zpos m * 2 ^ (e + scale) + 2 ^ (B - 53 + scale).
Proof.
  intros He HB HV. unfold binary_round.
  set (e' := fexp prec emax (Zpos (digits2_pos m) + e)).
  assert (He' : - scale <= e') by (unfold e'; rewrite fexp_eq; lia).
  pose proof (shl_align_units m e e' He He') as Hu.
  pose proof (shl_align_spec m e e') as [He2 _].
  destruct (shl_align m e e') as [mz ez]; cbn [fst snd] in *.
  rewrite <- Hu in *. apply binary_round_aux_bound; [lia|done..].
Qed.

(** Adding two non-negative floats whose sum is below [2 ^ B] rounds
    the exact sum up by at most one unit in the last place. *)
Lemma add_bound (x y : spec_float) (B : Z) :
  nonneg_finite x = true -> nonneg_finite y = true -> - 1021 <= B <= 900 ->
  units x + units y < 2 ^ (B + scale) ->
  nonneg_finite (SFadd prec emax x y) = true /\
  units (SFadd prec emax x y) <= units x + units y + 2 ^ (B - 53 + scale).
Proof.
  intros Hx Hy HB HV.
  assert (HE : 0 < 2 ^ (B - 53 + scale)) by (apply Z.pow_pos_nonneg; unfold scale; lia).
  destruct x as [[]| | |[] mx ex], y as [[]| | |[] my ey]; try done;
    cbn [SFadd units nonneg_finite negb andb] in *;
    try (split; [done | lia]).
  apply Z.leb_le in Hx, Hy. cbn [cond_Zopp].
  set (ez := Z.min ex ey).
    pose proof (shl_align_units mx ex ez) as Hux.
    pose proof (shl_align_units my ey ez) as Huy.
    pose proof (shl_align_spec mx ex ez) as [Hex _].
    pose proof (shl_align_spec my ey ez) as [Hey _].
    destruct (shl_align mx ex ez) as [mx' ex'], (shl_align my ey ez) as [my' ey'];
      cbn [fst snd] in *.
    assert (ex' = ez) as -> by lia. assert (ey' = ez) as -> by lia.
    rewrite <- Hux, <- Huy in * by lia.
    change (Zpos mx' + Zpos my') with (Zpos (mx' + my')) in *.
    cbn [binary_normalize].
    rewrite <- Z.mul_add_distr_r in *.
    change (Zpos mx' + Zpos my') with (Zpos (mx' + my')) in *.
    apply binary_round_bound; [lia|done..].
Qed.
End rounding.

(** ** The float filters *)

(** Each literal of the model is the binary64 number that Python reads
    from the decimal of the source. *)
Lemma literals_nearest :
  Float.nearest_to Float.c_0_299 299 1000 = true /\
  Float.nearest_to Float.c_0_587 587 1000 = true /\
  Float.nearest_to Float.c_0_114 114 1000 = true /\
  Float.nearest_to Float.c_0_9 9 10 = true /\
  Float.nearest_to Float.c_1_1 11 10 = true /\
  Float.nearest_to Float.c_0_85 85 100 = true /\
  Float.nearest_to Float.c_1_15 115 100 = true /\
  Float.nearest_to Float.c_0_93 93 100 = true /\
  Float.nearest_to Float.c_1_08 108 100 = true.
Proof. repeat split; vm_compute; reflexivity. Qed.

Lemma channel_cases (P : Z -> bool) :
  forallb P channels = true -> forall z, 0 <= z <= 255 -> P z = true.
Proof.
  intros H z Hz. rewrite forallb_forall in H. apply H.
  apply list_elem_of_In, elem_of_seqZ. lia.
Qed.

Lemma product_ok_0_299 z : 0 <= z <= 255 -> product_ok Float.c_0_299 z = true.
Proof. apply channel_cases. vm_compute. reflexivity. Qed.
Lemma product_ok_0_587 z : 0 <= z <= 255 -> product_ok Float.c_0_587 z = true.
Proof. apply channel_cases. vm_compute. reflexivity. Qed.
Lemma product_ok_0_114 z : 0 <= z <= 255 -> product_ok Float.c_0_114 z = true.
Proof. apply channel_cases. vm_compute. reflexivity. Qed.

Lemma product_finite c z :
  In c sepia_literals ->
  0 <= z <= 255 -> Float.nonneg_finite (mul_int_float z c) = true.
Proof.
  intros Hc. revert z. apply channel_cases. revert c Hc.
  apply (forallb_forall
           (fun c => forallb (fun z => Float.nonneg_finite (mul_int_float z c))
                             channels)).
  vm_compute. reflexivity.
Qed.

Lemma to_int_nonneg_finite f :
  Float.nonneg_finite f = true -> Float.to_int f = Ok (Float.truncate f).
Proof. by destruct f as [| | |]. Qed.

Lemma truncate_bound f N :
  Float.nonneg_finite f = true ->
  Float.units f < N * 2 ^ Float.scale ->
  0 <= Float.truncate f < N.
Proof.
  assert (Hs : 0 < 2 ^ Float.scale) by done.
  destruct f as [| | |[] m e]; try done; cbn; [lia|].
  intros He%Z.leb_le Hu. unfold Float.magnitude.
  destruct (Z.leb_spec 0 e) as [H0|H0].
  - rewrite Z.pow_add_r in Hu by (unfold Float.scale in *; lia).
    assert (0 < 2 ^ e) by (apply Z.pow_pos_nonneg; lia). nia.
  - assert (Hp : 0 < 2 ^ (- e)) by (apply Z.pow_pos_nonneg; lia).
    assert (Hq : 0 < 2 ^ (e + Float.scale)) by (apply Z.pow_pos_nonneg; lia).
    assert (Hsplit : 2 ^ Float.scale = 2 ^ (- e) * 2 ^ (e + Float.scale)).
    { rewrite <- Z.pow_add_r by lia. f_equal. lia. }
    split; [apply Z.div_pos; lia|].
    apply Z.div_lt_upper_bound; [done|]. rewrite Hsplit in Hu. nia.
Qed.

(** The bound on the exact sum of the three largest products, with room
    for the two roundings of the additions. *)
Lemma luminance_budget :
  max_product Float.c_0_299 + max_product Float.c_0_587
  + max_product Float.c_0_114 + 2 * 2 ^ (9 - 53 + Float.scale)
  < 256 * 2 ^ Float.scale.
Proof. vm_compute. reflexivity. Qed.

Lemma luminance_range r g b :
  0 <= r <= 255 -> 0 <= g <= 255 -> 0 <= b <= 255 ->
  Float.to_int (luminance r g b) = Ok (Float.truncate (luminance r g b)) /\
  0 <= Float.truncate (luminance r g b) <= 255.
Proof.
  intros Hr Hg Hb.
  pose proof (product_ok_0_299 r Hr) as [Pf Pu%Z.leb_le]%andb_true_iff.
  pose proof (product_ok_0_587 g Hg) as [Qf Qu%Z.leb_le]%andb_true_iff.
  pose proof (product_ok_0_114 b Hb) as [Rf Ru%Z.leb_le]%andb_true_iff.
  pose proof luminance_budget as Hbudget.
  unfold luminance, Float.add.
  set (P := mul_int_float r Float.c_0_299) in *.
  set (Q := mul_int_float g Float.c_0_587) in *.
  set (R := mul_int_float b Float.c_0_114) in *.
  set (BP := max_product Float.c_0_299) in *.
  set (BQ := max_product Float.c_0_587) in *.
  set (BR := max_product Float.c_0_114) in *.
  assert (HE : 0 < 2 ^ (9 - 53 + Float.scale)) by done.
  assert (H9 : 2 ^ (9 + Float.scale) = 512 * 2 ^ Float.scale) by done.
  set (E := 2 ^ (9 - 53 + Float.scale)) in *.
  set (U := 2 ^ Float.scale) in *.
  assert (HP0 : 0 <= Float.units P) by (destruct P; cbn; lia).
  assert (HQ0 : 0 <= Float.units Q) by (destruct Q; cbn; lia).
  assert (HR0 : 0 <= Float.units R) by (destruct R; cbn; lia).
  destruct (add_bound P Q 9) as [S1f S1u]; [done|done|lia|rewrite H9; lia|].
  fold E in S1u.
  destruct (add_bound (SFadd Float.prec Float.emax P Q) R 9) as [Ff Fu];
    [done|done|lia|rewrite H9; lia|].
  fold E in Fu.
  split; [by apply to_int_nonneg_finite|].
  cut (0 <= Float.truncate (SFadd Float.prec Float.emax (SFadd Float.prec Float.emax P Q) R) < 256);
    [lia|].
  apply truncate_bound; [done|]. fold U. lia.
Qed.

Lemma valid_pixel_at image x y :
  valid_image image -> in_range image x y -> valid_color (pixel_at image x y).
Proof.
  intros [Hwf Hval] Hr. rewrite Forall_forall in Hval.
  by apply Hval, pixel_at_elem_of.
Qed.

Lemma weighted_grayscale_ok image :
  valid_image image ->
  weighted_grayscale image = Ok (map_image weighted_grayscale_color image).
Proof.
  intros Hval. pose proof Hval as [Hwf _].
  apply point_loop_ok; [done|]. intros x y s Hr _.
  rewrite (get_color_ok _ _ _ Hwf Hr).
  pose proof (valid_pixel_at _ _ _ Hval Hr) as Hc.
  destruct (pixel_at image x y) as [r g b]. destruct Hc as (Hr' & Hg' & Hb').
  cbn in Hr', Hg', Hb'.
  destruct (luminance_range r g b Hr' Hg' Hb') as [Hint _].
  cbn. unfold create_color; cbn. by rewrite Hint.
Qed.

Lemma weighted_grayscale_valid image :
  valid_image image -> valid_image (map_image weighted_grayscale_color image).
Proof.
  intros [Hwf Hval]. split; [by apply map_image_well_formed|].
  cbn. apply Forall_fmap. eapply Forall_impl; [exact Hval|].
  intros [r g b] (Hr & Hg & Hb); cbn in *.
  destruct (luminance_range r g b Hr Hg Hb) as [_ Hv].
  unfold valid_color; cbn. lia.
Qed.

Lemma sepia_color_ok c :
  valid_color c -> sepia_color c = Ok (sepia_tint_color c).
Proof.
  destruct c as [r g b]. intros (Hr & Hg & Hb); cbn in *.
  unfold sepia_color, sepia_tint_color, create_color; cbn.
  repeat case_match;
    rewrite !to_int_nonneg_finite; try done;
    apply product_finite; try done; cbn; tauto.
Qed.

(** The products are binary64 products: [100 * 1.15] is
    114.99999999999999 and is stored as 114. *)
Remark sepia_tint_gray_100 :
  sepia_tint (uniform_image 1 1 (RGB 100 100 100))
  = Ok (uniform_image 1 1 (RGB 114 100 85)).
Proof. vm_compute. reflexivity. Qed.

Lemma sepia_tint_ok image :
  valid_image image ->
  sepia_tint image
  = Ok (map_image sepia_tint_color (map_image weighted_grayscale_color image)).
Proof.
  intros Hval. unfold sepia_tint. rewrite weighted_grayscale_ok by done. cbn.
  set (gray_image := map_image weighted_grayscale_color image).
  pose proof (weighted_grayscale_valid image Hval) as Hgray.
  fold gray_image in Hgray. pose proof Hgray as [Hwf _].
  destruct (for_each_in_place sepia_color sepia_tint_color (coords gray_image)
              gray_image) as (out & Hrun & Hwf' & Hsz & Hin & _).
  - done.
  - apply NoDup_coords.
  - intros x y. apply elem_of_coords.
  - intros x y Hp%elem_of_coords. by apply sepia_color_ok, valid_pixel_at.
  - unfold copy. rewrite Hrun. f_equal. apply image_ext; try done.
    + by apply map_image_well_formed.
    + intros x y Hr. apply (in_range_same_size _ gray_image) in Hr; [|done].
      rewrite Hin by by apply elem_of_coords.
      by rewrite pixel_at_map_image.
Qed.

(** ** Reading the result of an interior loop with [get_color] *)

Lemma on_border_not_interior image x y :
  on_border image x y -> (x, y) ∉ interior image.
Proof. intros [_ H]. rewrite elem_of_interior. lia. Qed.

Lemma interior_rewrite_get image out val :
  well_formed image -> interior_rewrite image out val ->
  get_width out = get_width image /\ get_height out = get_height image /\
  (forall x y, in_interior image x y -> get_color out x y = Ok (val x y)) /\
  (forall x y, on_border image x y -> get_color out x y = get_color image x y).
Proof.
  intros Hwf (Hwf' & [Hw Hh] & Hin & Hout). do 2 (split; [done|]). split.
  - intros x y Hp%elem_of_interior. rewrite <- (Hin x y Hp).
    apply get_color_ok; [done|]. apply (in_range_same_size image); [done|].
    by apply interior_in_range.
  - intros x y Hb. pose proof Hb as [Hr _].
    rewrite (get_color_ok image), (get_color_ok out); try done.
    + f_equal. apply Hout; [done|]. by apply on_border_not_interior.
    + by apply (in_range_same_size image).
Qed.

Lemma grid_nil_r ys : grid ys [] = [].
Proof. induction ys as [|y ys IH]; [done|]. exact IH. Qed.

Lemma interior_small image :
  get_width image <= 2 \/ get_height image <= 2 -> interior image = [].
Proof.
  intros [H|H]; unfold interior.
  - rewrite (range_empty 1 (get_width image - 1)) by lia. apply grid_nil_r.
  - by rewrite (range_empty 1 (get_height image - 1)) by lia.
Qed.

Lemma small_interior_loop (body : Z -> Z -> Image -> result Image) image :
  get_width image <= 2 \/ get_height image <= 2 ->
  for_each (range 1 (get_height image - 1)) (fun y s =>
    for_each (range 1 (get_width image - 1)) (fun x s => body x y s) s) image
  = Ok image.
Proof.
  intros H. rewrite for_each_nested. fold (interior image).
  by rewrite interior_small.
Qed.

Lemma map_image_empty g image :
  well_formed image -> get_width image = 0 \/ get_height image = 0 ->
  map_image g image = image.
Proof.
  intros (_ & _ & Hlen) H. destruct image as [w h p]; cbn in *.
  replace (Z.to_nat (w * h)) with 0%nat in Hlen by nia.
  apply nil_length_inv in Hlen as ->. done.
Qed.

Lemma map_image_ext f g image :
  Forall (fun c => f c = g c) (pixels image) -> map_image f image = map_image g image.
Proof. intros H. unfold map_image. f_equal. by apply Forall_fmap_ext_1. Qed.

Lemma map_image_id g image :
  Forall (fun c => g c = c) (pixels image) -> map_image g image = image.
Proof.
  intros H. destruct image as [w h p]. unfold map_image; cbn in *. f_equal.
  rewrite <- (list_fmap_id p) at 2. by apply Forall_fmap_ext_1.
Qed.

Lemma map_image_compose f g image :
  map_image f (map_image g image) = map_image (f ∘ g) image.
Proof. unfold map_image; cbn. f_equal. by rewrite <- list_fmap_compose. Qed.

(** ** All point filters, all interior filters *)

(** Every point filter maps some function over the colours of a grid. *)
Lemma point_filters_ok threshold f image :
  f ∈ point_filters threshold -> valid_image image ->
  exists g, f image = Ok (map_image g image).
Proof.
  intros Hf Hval. pose proof Hval as [Hwf _]. unfold point_filters in Hf.
  repeat (apply elem_of_cons in Hf as [->|Hf]); [..|by inversion Hf].
  - eexists. by apply grayscale_ok.
  - eexists. by apply weighted_grayscale_ok.
  - eexists. by apply negative_ok.
  - eexists. by apply solarize_ok.
  - eexists. by apply black_and_white_ok.
  - eexists. by apply black_and_white_and_gray_ok.
  - eexists. by apply extreme_contrast_ok.
  - eexists. rewrite sepia_tint_ok by done. by rewrite map_image_compose.
  - eexists. by apply posterize_ok.
Qed.

(** Every interior filter rewrites the interior of a copy of the grid. *)
Lemma interior_filters_ok threshold f image :
  f ∈ interior_filters threshold -> well_formed image ->
  exists out val, f image = Ok out /\ interior_rewrite image out val.
Proof.
  intros Hf Hwf. unfold interior_filters in Hf.
  repeat (apply elem_of_cons in Hf as [->|Hf]); [..|by inversion Hf].
  - destruct (detect_edges_ok image threshold Hwf) as (out & ? & ?); eauto.
  - destruct (detect_edges_better_ok image threshold Hwf) as (out & ? & ?); eauto.
  - destruct (blur_better_ok image Hwf) as (out & ? & ?); eauto.
  - destruct (flip_vertical_ok image Hwf) as (out & ? & ?); eauto.
  - destruct (flip_horizontal_ok image Hwf) as (out & ? & ?); eauto.
Qed.

Lemma interior_filters_small threshold f image :
  f ∈ interior_filters threshold ->
  get_width image <= 2 \/ get_height image <= 2 -> f image = Ok image.
Proof.
  intros Hf Hsmall. unfold interior_filters in Hf.
  repeat (apply elem_of_cons in Hf as [->|Hf]); [..|by inversion Hf].
  - by apply small_interior_loop.
  - by apply small_interior_loop.
  - by apply small_interior_loop.
  - by apply (small_interior_loop
                (fun x y s => col ← get_color image x y;
                   set_color s (get_width image - (x + 1)) y col)).
  - by apply (small_interior_loop
                (fun x y s => col ← get_color image x y;
                   set_color s x (get_height image - (y + 1)) col)).
Qed.

(** ** Comparisons with a threshold *)

Lemma py_lt_above c t : py_lt (PyInt c) t = true <-> threshold_above t c.
Proof.
  destruct t as [z|[s|s| |s m e]]; cbn.
  - apply Z.ltb_lt.
  - destruct (Z.compare_spec c 0); split; first [done | lia].
  - by destruct s.
  - done.
  - destruct (0 <=? e);
      match goal with
      | |- context [?a ?= ?b] => destruct (Z.compare_spec a b)
      end; split; first [done | lia].
Qed.

Lemma py_gt_below c t : py_gt (PyInt c) t = true <-> threshold_below t c.
Proof.
  unfold py_gt. destruct t as [z|[s|s| |s m e]]; cbn.
  - apply Z.ltb_lt.
  - destruct (Z.compare_spec c 0); split; first [done | lia].
  - by destruct s.
  - done.
  - destruct (0 <=? e);
      match goal with
      | |- context [?a ?= ?b] => destruct (Z.compare_spec a b)
      end; split; first [done | lia].
Qed.

(** ** Rounding from below, and the exact weighted sum *)

Section rounding_below.
Import Float.

Lemma div_pow2_bounds m n :
  0 <= m -> 0 <= n ->
  0 <= m `div` 2 ^ n /\ m `div` 2 ^ n * 2 ^ n <= m < (m `div` 2 ^ n + 1) * 2 ^ n.
Proof.
  intros Hm Hn. assert (Hp : 0 < 2 ^ n) by by apply Z.pow_pos_nonneg.
  pose proof (Z.div_mod m (2 ^ n) ltac:(lia)) as Hdm.
  pose proof (Z.mod_pos_bound m (2 ^ n) Hp) as Hmod.
  split; [apply Z.div_pos; lia | lia].
Qed.

(** Rounding a positive value below [2 ^ B] loses at most three units in
    the last place. *)
Lemma binary_round_aux_lower (m : positive) (e B : Z) :
  - scale <= e -> - 1021 <= B <= 900 ->
  Zpos m * 2 ^ (e + scale) < 2 ^ (B + scale) ->
  Zpos m * 2 ^ (e + scale)
  <= units (binary_round_aux prec emax false (Zpos m) e loc_Exact)
     + 3 * 2 ^ (B - 53 + scale).
Proof.
  intros He HB HV.
  pose proof (digits2_pos_bounds m) as [Hd1 Hd2].
  set (d := Zpos (digits2_pos m)) in *.
  assert (Hd : 1 <= d) by (unfold d; lia).
  assert (HU : 0 < 2 ^ (e + scale)) by (apply Z.pow_pos_nonneg; lia).
  assert (HE : 0 < 2 ^ (B - 53 + scale))
    by (apply Z.pow_pos_nonneg; unfold scale; lia).
  assert (Hde : d + e <= B).
  { assert (2 ^ (d - 1 + (e + scale)) < 2 ^ (B + scale)) as Hlt.
    { rewrite Z.pow_add_r by lia. nia. }
    apply Z.pow_lt_mono_r_iff in Hlt; unfold scale in *; lia. }
  unfold binary_round_aux.
  destruct (shr_fexp_cases (Zpos m) e loc_Exact ltac:(lia))
    as [[Hn ->] | (Hn & mrs' & -> & Hm1)].
  - rewrite shr_record_of_loc_m, loc_of_shr_record_of_loc.
    cbn [round_nearest_even].
    destruct (shr_fexp_cases (Zpos m) e loc_Exact ltac:(lia))
      as [[_ ->] | (Hn' & _)]; [|lia].
    rewrite shr_record_of_loc_m.
    replace (e <=? emax - prec) with true
      by (symmetry; apply Z.leb_le; unfold emax, prec; lia).
    cbn [units]. lia.
  - cbn [Zdigits2] in Hn, Hm1. fold d in Hn, Hm1. rewrite fexp_eq in Hn, Hm1.
    cbn [Zdigits2]. fold d. rewrite fexp_eq.
    set (n := Z.max (d + e - 53) (- scale) - e) in *.
    set (e' := e + n).
    assert (He' : e' <= B - 53) by (unfold e', n, scale in *; lia).
    assert (Hpn : 0 < 2 ^ n) by (apply Z.pow_pos_nonneg; lia).
    set (m1 := shr_m mrs') in *.
    pose proof (div_pow2_bounds (Zpos m) n ltac:(lia) ltac:(lia)) as Hm1'.
    rewrite <- Hm1 in Hm1'.
    pose proof (round_nearest_even_bounds m1 (loc_of_shr_record mrs')) as Hm2.
    set (m2 := round_nearest_even m1 (loc_of_shr_record mrs')) in *.
    assert (HU' : 2 ^ (e' + scale) = 2 ^ n * 2 ^ (e + scale))
      by (unfold e'; apply units_split; lia).
    assert (HU'E : 2 ^ (e' + scale) <= 2 ^ (B - 53 + scale))
      by (apply Z.pow_le_mono_r; lia).
    assert (Hlow : Zpos m * 2 ^ (e + scale)
                   <= m2 * 2 ^ (e' + scale) + 2 ^ (B - 53 + scale)) by nia.
    assert (Hupp : m2 * 2 ^ (e' + scale)
                   <= Zpos m * 2 ^ (e + scale) + 2 ^ (B - 53 + scale)) by nia.
    destruct (shr_fexp_cases m2 e' loc_Exact ltac:(lia))
      as [[Hn2 ->] | (Hn2 & mrs'' & -> & Hm3)].
    + rewrite shr_record_of_loc_m.
      destruct m2 as [|q|q] eqn:Eq; [cbn [units]; lia | | lia].
      replace (e' <=? emax - prec) with true
        by (symmetry; apply Z.leb_le; unfold emax, prec; lia).
      cbn [units]. lia.
    + rewrite fexp_eq in Hn2, Hm3. rewrite fexp_eq.
      set (n2 := Z.max (Zdigits2 m2 + e' - 53) (- scale) - e') in *.
      assert (Hpn2 : 0 < 2 ^ n2) by (apply Z.pow_pos_nonneg; lia).
      pose proof (div_pow2_bounds m2 n2 ltac:(lia) ltac:(lia)) as Hm3'.
      rewrite <- Hm3 in Hm3'.
      assert (HU'' : 2 ^ (e' + n2 + scale) = 2 ^ n2 * 2 ^ (e' + scale))
        by (apply units_split; unfold e', scale in *; lia).
      assert (Hd2e : Zdigits2 m2 + e' <= B + 1).
      { destruct m2 as [|q|q] eqn:Eq; [unfold scale in *; simpl in *; lia| |lia].
        pose proof (digits2_pos_bounds q) as [Hq1 _]. cbn [Zdigits2].
        assert (2 ^ (Zpos (digits2_pos q) - 1 + (e' + scale))
                < 2 ^ (B + 1 + scale)) as Hlt.
        { rewrite Z.pow_add_r by (unfold e', scale in *; lia).
          replace (B + 1 + scale) with (1 + (B + scale)) by lia.
          rewrite (Z.pow_add_r 2 1) by (unfold scale; lia).
          assert (2 ^ (B - 53 + scale) <= 2 ^ (B + scale))
            by (apply Z.pow_le_mono_r; unfold scale; lia).
          assert (0 < 2 ^ (e' + scale))
            by (apply Z.pow_pos_nonneg; unfold e', scale in *; lia).
          nia. }
        apply Z.pow_lt_mono_r_iff in Hlt; unfold scale in *; lia. }
      assert (HE2 : 2 ^ (e' + n2 + scale) <= 2 * 2 ^ (B - 53 + scale)).
      { replace (2 * 2 ^ (B - 53 + scale)) with (2 ^ (B - 52 + scale)).
        - apply Z.pow_le_mono_r; unfold n2, scale in *; lia.
        - replace (B - 52 + scale) with (1 + (B - 53 + scale)) by lia.
          rewrite Z.pow_add_r by (unfold scale; lia). done. }
      assert (Hlow3 : m2 * 2 ^ (e' + scale)
                      <= shr_m mrs'' * 2 ^ (e' + n2 + scale)
                         + 2 ^ (e' + n2 + scale)) by nia.
      destruct (shr_m mrs'') as [|q|q] eqn:Eq; [cbn [units]; lia | | lia].
      replace (e' + n2 <=? emax - prec) with true
        by (symmetry; apply Z.leb_le; unfold emax, prec, n2, scale in *; lia).
      cbn [units]. lia.
Qed.

Lemma binary_round_lower (m : positive) (e B : Z) :
  - scale <= e -> - 1021 <= B <= 900 ->
  Zpos m * 2 ^ (e + scale) < 2 ^ (B + scale) ->
  Zpos m * 2 ^ (e + scale)
  <= units (binary_round prec emax false m e) + 3 * 2 ^ (B - 53 + scale).
Proof.
  intros He HB HV. unfold binary_round.
  set (e' := fexp prec emax (Zpos (digits2_pos m) + e)).
  assert (He' : - scale <= e') by (unfold e'; rewrite fexp_eq; lia).
  pose proof (shl_align_units m e e' He He') as Hu.
  pose proof (shl_align_spec m e e') as [He2 _].
  destruct (shl_align m e e') as [mz ez]; cbn [fst snd] in *.
  rewrite <- Hu in *. apply binary_round_aux_lower; [lia|done..].
Qed.

Lemma add_lower (x y : spec_float) (B : Z) :
  nonneg_finite x = true -> nonneg_finite y = true -> - 1021 <= B <= 900 ->
  units x + units y < 2 ^ (B + scale) ->
  units x + units y <= units (SFadd prec emax x y) + 3 * 2 ^ (B - 53 + scale).
Proof.
  intros Hx Hy HB HV.
  assert (HE : 0 < 2 ^ (B - 53 + scale))
    by (apply Z.pow_pos_nonneg; unfold scale; lia).
  destruct x as [[]| | |[] mx ex], y as [[]| | |[] my ey]; try done;
    cbn [SFadd units nonneg_finite negb andb] in *; try lia.
  apply Z.leb_le in Hx, Hy. cbn [cond_Zopp].
  set (ez := Z.min ex ey).
  pose proof (shl_align_units mx ex ez) as Hux.
  pose proof (shl_align_units my ey ez) as Huy.
  pose proof (shl_align_spec mx ex ez) as [Hex _].
  pose proof (shl_align_spec my ey ez) as [Hey _].
  destruct (shl_align mx ex ez) as [mx' ex'], (shl_align my ey ez) as [my' ey'];
    cbn [fst snd] in *.
  assert (ex' = ez) as -> by lia. assert (ey' = ez) as -> by lia.
  rewrite <- Hux, <- Huy in * by lia.
  change (Zpos mx' + Zpos my') with (Zpos (mx' + my')) in *.
  cbn [binary_normalize].
  rewrite <- Z.mul_add_distr_r in *.
  change (Zpos mx' + Zpos my') with (Zpos (mx' + my')) in *.
  apply binary_round_lower; [lia|done..].
Qed.
End rounding_below.

Lemma product_near_0_299 z :
  0 <= z <= 255 -> product_near Float.c_0_299 299 z = true.
Proof. apply channel_cases. vm_compute. reflexivity. Qed.
Lemma product_near_0_587 z :
  0 <= z <= 255 -> product_near Float.c_0_587 587 z = true.
Proof. apply channel_cases. vm_compute. reflexivity. Qed.
Lemma product_near_0_114 z :
  0 <= z <= 255 -> product_near Float.c_0_114 114 z = true.
Proof. apply channel_cases. vm_compute. reflexivity. Qed.

Lemma truncate_units f :
  Float.nonneg_finite f = true ->
  Float.truncate f * 2 ^ Float.scale <= Float.units f
  < (Float.truncate f + 1) * 2 ^ Float.scale.
Proof.
  assert (Hs : 0 < 2 ^ Float.scale) by done.
  destruct f as [s|s| |s m e]; try done.
  destruct s; [done|]. cbn [Float.nonneg_finite negb andb Float.truncate Float.units].
  intros He%Z.leb_le. unfold Float.magnitude.
  destruct (Z.leb_spec 0 e) as [H0|H0].
  - rewrite Z.pow_add_r by (unfold Float.scale in *; lia).
    assert (0 < 2 ^ e) by (apply Z.pow_pos_nonneg; lia). nia.
  - assert (Hq : 0 < 2 ^ (e + Float.scale)) by (apply Z.pow_pos_nonneg; lia).
    assert (Hsplit : 2 ^ Float.scale = 2 ^ (- e) * 2 ^ (e + Float.scale)).
    { rewrite <- Z.pow_add_r by lia. f_equal. lia. }
    pose proof (div_pow2_bounds (Zpos m) (- e) ltac:(lia) ltac:(lia)) as Hd.
    rewrite Hsplit. nia.
Qed.

(** The gray value of [weighted_grayscale] against the exact weighted
    sum: the floor of [(299 r + 587 g + 114 b) / 1000], or one less when
    that quotient is an integer. *)
Lemma luminance_bracket r g b :
  0 <= r <= 255 -> 0 <= g <= 255 -> 0 <= b <= 255 ->
  1000 * Float.truncate (luminance r g b)
  <= 299 * r + 587 * g + 114 * b
  <= 1000 * Float.truncate (luminance r g b) + 1000.
Proof.
  intros Hr Hg Hb.
  pose proof (product_ok_0_299 r Hr) as [Pf Pu%Z.leb_le]%andb_true_iff.
  pose proof (product_ok_0_587 g Hg) as [Qf Qu%Z.leb_le]%andb_true_iff.
  pose proof (product_ok_0_114 b Hb) as [Rf Ru%Z.leb_le]%andb_true_iff.
  pose proof (product_near_0_299 r Hr) as Pn%Z.leb_le.
  pose proof (product_near_0_587 g Hg) as Qn%Z.leb_le.
  pose proof (product_near_0_114 b Hb) as Rn%Z.leb_le.
  pose proof luminance_budget as Hbudget.
  unfold luminance, Float.add.
  set (P := mul_int_float r Float.c_0_299) in *.
  set (Q := mul_int_float g Float.c_0_587) in *.
  set (R := mul_int_float b Float.c_0_114) in *.
  set (BP := max_product Float.c_0_299) in *.
  set (BQ := max_product Float.c_0_587) in *.
  set (BR := max_product Float.c_0_114) in *.
  assert (HE : 0 < 2 ^ (9 - 53 + Float.scale)) by done.
  assert (H9 : 2 ^ (9 + Float.scale) = 512 * 2 ^ Float.scale) by done.
  assert (H30 : 2 ^ Float.scale = 2 ^ 30 * 2 ^ (Float.scale - 30)) by done.
  assert (H44 : 2 ^ Float.scale = 2 ^ 44 * 2 ^ (9 - 53 + Float.scale)) by done.
  assert (HD : 0 < 2 ^ (Float.scale - 30)) by done.
  set (E := 2 ^ (9 - 53 + Float.scale)) in *.
  set (D := 2 ^ (Float.scale - 30)) in *.
  set (U := 2 ^ Float.scale) in *.
  assert (HP0 : 0 <= Float.units P) by (destruct P; cbn; lia).
  assert (HQ0 : 0 <= Float.units Q) by (destruct Q; cbn; lia).
  assert (HR0 : 0 <= Float.units R) by (destruct R; cbn; lia).
  destruct (add_bound P Q 9) as [S1f S1u]; [done|done|lia|rewrite H9; lia|].
  pose proof (add_lower P Q 9 Pf Qf ltac:(lia) ltac:(rewrite H9; lia)) as S1l.
  fold E in S1u, S1l.
  set (S1 := SFadd Float.prec Float.emax P Q) in *.
  destruct (add_bound S1 R 9) as [Ff Fu]; [done|done|lia|rewrite H9; lia|].
  pose proof (add_lower S1 R 9 S1f Rf ltac:(lia) ltac:(rewrite H9; lia)) as Fl.
  fold E in Fu, Fl.
  set (F := SFadd Float.prec Float.emax S1 R) in *.
  pose proof (truncate_units F Ff) as [Tl Tu]. fold U in Tl, Tu.
  set (v := Float.truncate F) in *.
  set (N := 299 * r + 587 * g + 114 * b).
  assert (HN : Z.abs (1000 * (Float.units P + Float.units Q + Float.units R)
                      - N * U) <= 3 * D) by (unfold N; lia).
  apply Z.abs_le in HN.
  change (2 ^ 30) with 1073741824 in H30.
  change (2 ^ 44) with 17592186044416 in H44.
  assert (HvU : 1000 * (v * U) <= N * U + 3 * D + 2000 * E /\
                N * U - 3 * D - 6000 * E <= 1000 * ((v + 1) * U) - 1).
  { generalize dependent (Float.units F). generalize dependent (Float.units S1).
    generalize dependent (Float.units P). generalize dependent (Float.units Q).
    generalize dependent (Float.units R). generalize dependent (v * U).
    generalize dependent ((v + 1) * U). generalize dependent (N * U).
    clear. intros. lia. }
  destruct HvU as [Hlo Hhi].
  assert (HU : 0 < U) by lia.
  assert (H1 : 1000 * v * U < (N + 1) * U).
  { replace (1000 * v * U) with (1000 * (v * U)) by lia.
    replace ((N + 1) * U) with (N * U + U) by lia.
    generalize dependent (v * U). generalize dependent (N * U).
    clear -H30 H44 HD HE. intros. lia. }
  assert (H2 : (N - 1) * U < (1000 * v + 1000) * U).
  { replace ((1000 * v + 1000) * U) with (1000 * ((v + 1) * U)) by lia.
    replace ((N - 1) * U) with (N * U - U) by lia.
    generalize dependent ((v + 1) * U). generalize dependent (N * U).
    clear -H30 H44 HD HE. intros. lia. }
  apply Z.mul_lt_mono_pos_r in H1, H2; [|done..].
  clear -H1 H2. lia.
Qed.

Lemma sepia_tint_color_gray v :
  0 <= v <= 255 -> sepia_tint_color (RGB v v v) = sepia_tones v.
Proof.
  intros Hv.
  apply (bool_decide_eq_true_1 (sepia_tint_color (RGB v v v) = sepia_tones v)).
  revert v Hv.
  apply (channel_cases
           (fun v => bool_decide (sepia_tint_color (RGB v v v) = sepia_tones v))).
  vm_compute. reflexivity.
Qed.

(** ** The properties *)

(** C1. Every filter returns, on every grid, a grid of the same width and
    the same height as its input. *)
Theorem C1_dimension_preservation threshold f g :
  f ∈ filters threshold -> valid_image g ->
  exists out,
    f g = Ok out /\
    get_width out = get_width g /\ get_height out = get_height g.
Proof.
  intros [Hf|Hf]%elem_of_app Hval.
  - destruct (point_filters_ok threshold f g Hf Hval) as [c ->]. by eexists.
  - destruct (interior_filters_ok threshold f g Hf (proj1 Hval))
      as (out & val & -> & _ & [Hw Hh] & _).
    by eexists.
Qed.

Lemma C1_dimension_preservation_witness :
  exists out,
    blur_better sample_image = Ok out /\
    get_width out = get_width sample_image /\
    get_height out = get_height sample_image.
Proof.
  apply (C1_dimension_preservation 0 blur_better sample_image).
  - unfold filters, interior_filters. apply elem_of_app. right.
    do 2 constructor 2. constructor 1.
  - apply (bool_decide_unpack (valid_image sample_image)). vm_compute. exact I.
Defined.

Ltac by_computation :=
  match goal with
  | |- ?P => apply (bool_decide_unpack P); vm_compute; exact I
  end.

(** C2 fails on the grid of width 0 and height 3: [detect_edges] and
    [flip_vertical] return it and raise nothing. *)
Lemma C2_zero_dimensions_counterexample :
  valid_image empty_image /\ get_width empty_image = 0 /\
  detect_edges empty_image 50 = Ok empty_image /\
  flip_vertical empty_image = Ok empty_image /\
  ~ zero_dimensions_rejected.
Proof.
  assert (Hval : valid_image empty_image) by by_computation.
  do 4 (split; [done|]). intros H.
  destruct (H 50 flip_vertical empty_image) as [e He]; [|done|by left|done].
  unfold filters, interior_filters. apply elem_of_app. right.
  do 3 constructor 2. constructor 1.
Qed.

(** C2, amended.  On a grid of width or height 0 every filter returns a
    grid identical to its input and raises nothing: the loops run over no
    coordinate. *)
Theorem C2_zero_dimensions_returned threshold f g :
  f ∈ filters threshold -> valid_image g ->
  get_width g = 0 \/ get_height g = 0 ->
  f g = Ok g /\ ~ raises (f g).
Proof.
  intros Hf Hval Hzero.
  assert (Hfg : f g = Ok g); [|split; [done|rewrite Hfg; by intros [e He]]].
  apply elem_of_app in Hf as [Hf|Hf].
  - destruct (point_filters_ok threshold f g Hf Hval) as [c ->].
    f_equal. apply map_image_empty; [apply Hval|done].
  - apply (interior_filters_small threshold); [done|lia].
Qed.

Lemma C2_zero_dimensions_returned_witness :
  sepia_tint empty_image = Ok empty_image /\ ~ raises (sepia_tint empty_image).
Proof.
  apply (C2_zero_dimensions_returned 50 sepia_tint empty_image).
  - unfold filters, point_filters. apply elem_of_app. left.
    do 7 constructor 2. constructor 1.
  - by_computation.
  - left. reflexivity.
Defined.

(** C3. On a grid whose channels are integers of 0..255, applying
    [negative] twice gives the grid back, pixel for pixel. *)
Theorem C3_negative_involution img :
  valid_image img ->
  exists inverted,
    negative img = Ok inverted /\ negative inverted = Ok img /\
    forall x y r g b, get_color img x y = Ok (RGB r g b) ->
      get_color inverted x y = Ok (RGB (255 - r) (255 - g) (255 - b)).
Proof.
  intros [Hwf _]. exists (map_image negative_color img).
  split; [by apply negative_ok|]. split.
  - rewrite negative_ok by by apply map_image_well_formed.
    rewrite map_image_compose. f_equal. apply map_image_id.
    apply Forall_forall. intros [r g b] _. cbn. f_equal; lia.
  - intros x y r g b Hget. by rewrite (get_color_map_image _ _ _ _ _ Hget).
Qed.

Lemma C3_negative_involution_witness :
  exists inverted,
    negative sample_image = Ok inverted /\
    negative inverted = Ok sample_image /\
    forall x y r g b, get_color sample_image x y = Ok (RGB r g b) ->
      get_color inverted x y = Ok (RGB (255 - r) (255 - g) (255 - b)).
Proof. apply (C3_negative_involution sample_image). by_computation. Defined.

(** C4. On a grid whose channels are integers of 0..255, [solarize] with
    threshold 0 returns the grid unchanged, and [solarize] with threshold
    256 returns what [negative] returns. *)
Theorem C4_solarize_boundary img :
  valid_image img ->
  solarize img 0 = Ok img /\
  (exists inverted,
     negative img = Ok inverted /\ solarize img 256 = Ok inverted) /\
  (forall threshold, exists out,
     solarize img threshold = Ok out /\
     forall x y r g b, get_color img x y = Ok (RGB r g b) ->
       get_color out x y
       = Ok (RGB (if py_lt r threshold then 255 - r else r)
                 (if py_lt g threshold then 255 - g else g)
                 (if py_lt b threshold then 255 - b else b))).
Proof.
  intros [Hwf Hval]. rewrite negative_ok by done.
  split; [|split];
    [rewrite solarize_ok by done | rewrite solarize_ok by done |].
  3: { intros threshold. eexists. split; [by apply solarize_ok|].
       intros x y r g b Hget. by rewrite (get_color_map_image _ _ _ _ _ Hget). }
  - f_equal. apply map_image_id. eapply Forall_impl; [exact Hval|].
    intros [r g b] (Hr & Hg & Hb); cbn in *.
    by rewrite !(proj2 (Z.ltb_ge _ 0)) by lia.
  - eexists. split; [done|]. f_equal. apply map_image_ext.
    eapply Forall_impl; [exact Hval|].
    intros [r g b] (Hr & Hg & Hb); cbn in *.
    by rewrite !(proj2 (Z.ltb_lt _ 256)) by lia.
Qed.

Lemma C4_solarize_boundary_witness :
  solarize sample_image 0 = Ok sample_image /\
  (exists inverted,
     negative sample_image = Ok inverted /\
     solarize sample_image 256 = Ok inverted) /\
  (forall threshold, exists out,
     solarize sample_image threshold = Ok out /\
     forall x y r g b, get_color sample_image x y = Ok (RGB r g b) ->
       get_color out x y
       = Ok (RGB (if py_lt r threshold then 255 - r else r)
                 (if py_lt g threshold then 255 - g else g)
                 (if py_lt b threshold then 255 - b else b))).
Proof. apply (C4_solarize_boundary sample_image). by_computation. Defined.

(** C5. Applying [flip_vertical] twice restores every interior pixel, and
    each single application leaves every border pixel as it was. *)
Theorem C5_flip_vertical_twice img :
  valid_image img ->
  exists once twice,
    flip_vertical img = Ok once /\ flip_vertical once = Ok twice /\
    (forall x y, in_interior img x y ->
       get_color twice x y = get_color img x y) /\
    (forall x y, on_border img x y ->
       get_color once x y = get_color img x y /\
       get_color twice x y = get_color once x y).
Proof.
  intros [Hwf _].
  destruct (flip_vertical_ok img Hwf) as (once & Hrun1 & Hrw1).
  pose proof Hrw1 as (Hwf1 & [Hw1 Hh1] & Hin1 & _).
  destruct (flip_vertical_ok once Hwf1) as (twice & Hrun2 & Hrw2).
  apply interior_rewrite_get in Hrw1 as (_ & _ & _ & Hb1); [|done].
  apply interior_rewrite_get in Hrw2 as (_ & _ & Hi2 & Hb2); [|done].
  exists once, twice. do 2 (split; [done|]). split.
  - intros x y Hp.
    assert (Hp1 : in_interior once x y)
      by (unfold in_interior in *; by rewrite Hw1, Hh1).
    rewrite (Hi2 x y Hp1), Hw1.
    rewrite (Hin1 (get_width img - (x + 1)) y)
      by (apply elem_of_interior; unfold in_interior in Hp; lia).
    replace (get_width img - (get_width img - (x + 1) + 1)) with x by lia.
    symmetry. apply get_color_ok; [done|].
    unfold in_interior in Hp. unfold in_range. lia.
  - intros x y Hb. split; [by apply Hb1|]. apply Hb2.
    unfold on_border, in_range in *. by rewrite Hw1, Hh1.
Qed.

Lemma C5_flip_vertical_twice_witness :
  exists once twice,
    flip_vertical sample_image = Ok once /\ flip_vertical once = Ok twice /\
    (forall x y, in_interior sample_image x y ->
       get_color twice x y = get_color sample_image x y) /\
    (forall x y, on_border sample_image x y ->
       get_color once x y = get_color sample_image x y /\
       get_color twice x y = get_color once x y).
Proof. apply (C5_flip_vertical_twice sample_image). by_computation. Defined.

(** C6. [blur_better] leaves the first and last row and the first and
    last column as they were, and gives every interior pixel, channel by
    channel, the floor of a ninth of the sum over the 3x3 window around
    it. *)
Theorem C6_blur_better img :
  valid_image img ->
  exists out,
    blur_better img = Ok out /\
    (forall x y, on_border img x y -> get_color out x y = get_color img x y) /\
    (forall x y, in_interior img x y ->
       get_color out x y
       = Ok (RGB (channel_sum red img (window x y) `div` 9)
                 (channel_sum green img (window x y) `div` 9)
                 (channel_sum blue img (window x y) `div` 9))).
Proof.
  intros [Hwf _]. destruct (blur_better_ok img Hwf) as (out & Hrun & Hrw).
  apply interior_rewrite_get in Hrw as (_ & _ & Hi & Hb); [|done].
  exists out. split; [done|]. split; [done|]. intros x y Hp. by apply Hi.
Qed.

Lemma C6_blur_better_witness :
  exists out,
    blur_better sample_image = Ok out /\
    (forall x y, on_border sample_image x y ->
       get_color out x y = get_color sample_image x y) /\
    (forall x y, in_interior sample_image x y ->
       get_color out x y
       = Ok (RGB (channel_sum red sample_image (window x y) `div` 9)
                 (channel_sum green sample_image (window x y) `div` 9)
                 (channel_sum blue sample_image (window x y) `div` 9))).
Proof. apply (C6_blur_better sample_image). by_computation. Defined.

(** C7. [detect_edges_better] makes an interior pixel black when its
    brightness exceeds that of the pixel below or that of the pixel to
    the right by more than the threshold, and white otherwise; the
    brightness is the floor of the mean of the three channels of the
    input; the border keeps its colours.  The threshold is an [int]
    (first part, in integer arithmetic) or any number, a float included
    (second part, the comparison taken between real numbers); the third
    part is the result on the sample grid at threshold 50. *)
Theorem C7_detect_edges_better :
  (forall img (threshold : Z), valid_image img ->
     exists out,
       detect_edges_better img threshold = Ok out /\
       (forall x y, in_interior img x y ->
          get_color out x y
          = Ok (if (threshold <? brightness_of (pixel_at img x y)
                                 - brightness_of (pixel_at img x (y + 1)))
                   || (threshold <? brightness_of (pixel_at img x y)
                                    - brightness_of (pixel_at img (x + 1) y))
                then RGB 0 0 0 else RGB 255 255 255)) /\
       (forall x y, on_border img x y ->
          get_color out x y = get_color img x y)) /\
  (forall img (threshold : number), valid_image img ->
     exists out,
       detect_edges_better img threshold = Ok out /\
       (forall x y, in_interior img x y ->
          let exceeds :=
            threshold_below threshold
              (brightness_of (pixel_at img x y)
               - brightness_of (pixel_at img x (y + 1))) \/
            threshold_below threshold
              (brightness_of (pixel_at img x y)
               - brightness_of (pixel_at img (x + 1) y)) in
          (exceeds -> get_color out x y = Ok (RGB 0 0 0)) /\
          (~ exceeds -> get_color out x y = Ok (RGB 255 255 255))) /\
       (forall x y, on_border img x y ->
          get_color out x y = get_color img x y)) /\
  detect_edges_better sample_image 50
  = Ok (mkImage 4 4
          [RGB 0 0 0;      RGB 10 200 30;   RGB 255 255 255; RGB 64 128 192;
           RGB 12 34 56;   RGB 0 0 0;       RGB 0 0 0;       RGB 1 2 3;
           RGB 200 100 50; RGB 255 255 255; RGB 255 255 255; RGB 255 0 0;
           RGB 7 77 177;   RGB 0 255 0;     RGB 63 191 237;  RGB 85 171 84]).
Proof.
  assert (Hgen : forall img (threshold : number), well_formed img ->
            exists out,
              detect_edges_better img threshold = Ok out /\
              (forall x y, in_interior img x y ->
                 get_color out x y
                 = Ok (detect_edges_better_color img threshold x y)) /\
              (forall x y, on_border img x y ->
                 get_color out x y = get_color img x y)).
  { intros img threshold Hwf.
    destruct (detect_edges_better_ok img threshold Hwf) as (out & Hrun & Hrw).
    apply interior_rewrite_get in Hrw as (_ & _ & Hi & Hb); [|done].
    by exists out. }
  split; [|split; [|vm_compute; reflexivity]].
  - intros img threshold [Hwf _].
    destruct (Hgen img threshold Hwf) as (out & Hrun & Hi & Hb).
    exists out. split; [done|]. split; [|done]. intros x y Hp.
    by rewrite (Hi x y Hp).
  - intros img threshold [Hwf _].
    destruct (Hgen img threshold Hwf) as (out & Hrun & Hi & Hb).
    exists out. split; [done|]. split; [|done]. intros x y Hp.
    rewrite (Hi x y Hp). unfold detect_edges_better_color. cbn zeta.
    rewrite <- !py_gt_below.
    destruct (py_gt _ threshold), (py_gt _ threshold); cbn;
      split; intros H; first [done | by destruct H | destruct H; by auto].
Qed.

Lemma C7_detect_edges_better_witness :
  exists out,
    detect_edges_better sample_image 50 = Ok out /\
    (forall x y, in_interior sample_image x y ->
       get_color out x y
       = Ok (if (50 <? brightness_of (pixel_at sample_image x y)
                       - brightness_of (pixel_at sample_image x (y + 1)))
                || (50 <? brightness_of (pixel_at sample_image x y)
                          - brightness_of (pixel_at sample_image (x + 1) y))
             then RGB 0 0 0 else RGB 255 255 255)) /\
    (forall x y, on_border sample_image x y ->
       get_color out x y = get_color sample_image x y).
Proof.
  apply (proj1 C7_detect_edges_better sample_image 50). by_computation.
Defined.

(** C8. [sepia_tint] applies [weighted_grayscale] and then, at every
    pixel of gray value [v], stores [v * 1.1] and [v * 0.9] in red and blue
    when [v < 63], [v * 1.15] and [v * 0.85] when [v < 191], [v * 1.08] and
    [v * 0.93] otherwise, each truncated to an integer, and leaves green at
    [v].  The stored values are given in integer arithmetic: the floor of
    the exact product, but for the gray values 100 and 180, where the
    binary64 product [v * 1.15] falls just below the integer 115 and 207
    and 114 and 206 are stored.  Nothing clamps the result: a pixel of
    gray value 255 gets the red channel 275.  The last part is the result
    on the sample grid. *)
Theorem C8_sepia_tint :
  (forall img, valid_image img ->
     exists gray out,
       weighted_grayscale img = Ok gray /\ sepia_tint img = Ok out /\
       forall x y, in_range img x y ->
         exists v,
           get_color gray x y = Ok (RGB v v v) /\ 0 <= v <= 255 /\
           get_color out x y
           = Ok (if v <? 63 then
                   RGB ((11 * v) `div` 10) v ((9 * v) `div` 10)
                 else if v <? 191 then
                   RGB ((115 * v) `div` 100
                        - (if (v =? 100) || (v =? 180) then 1 else 0)) v
                       ((85 * v) `div` 100)
                 else
                   RGB ((108 * v) `div` 100) v ((93 * v) `div` 100))) /\
  (exists img gray out,
     valid_image img /\
     weighted_grayscale img = Ok gray /\ sepia_tint img = Ok out /\
     get_color gray 0 0 = Ok (RGB 255 255 255) /\
     get_color out 0 0 = Ok (RGB 275 255 237) /\
     (108 * 255) `div` 100 = 275 /\ 255 < 275) /\
  sepia_tint sample_image
  = Ok (mkImage 4 4
          [RGB 0 0 0;       RGB 141 123 104; RGB 275 255 237; RGB 133 116 98;
           RGB 31 29 26;    RGB 105 92 78;   RGB 103 90 76;   RGB 1 1 0;
           RGB 142 124 105; RGB 64 59 53;    RGB 146 127 107; RGB 87 76 64;
           RGB 77 67 56;    RGB 171 149 126; RGB 180 157 133;
           RGB 155 135 114]).
Proof.
  split; [|split; [|vm_compute; reflexivity]].
  - intros img Hval. pose proof Hval as [Hwf _].
    pose proof (weighted_grayscale_valid img Hval) as [Hwfg _].
    eexists _, _. split; [by apply weighted_grayscale_ok|].
    split; [by apply sepia_tint_ok|]. intros x y Hr.
    pose proof (valid_pixel_at _ _ _ Hval Hr) as Hc.
    assert (Hv : 0 <= gray_level (pixel_at img x y) <= 255).
    { destruct (pixel_at img x y) as [r g b]. destruct Hc as (Hr' & Hg' & Hb').
      by destruct (luminance_range r g b Hr' Hg' Hb'). }
    exists (gray_level (pixel_at img x y)). split; [|split; [done|]].
    + rewrite get_color_ok, pixel_at_map_image;
        try done; by apply map_image_well_formed.
    + rewrite !get_color_ok, !pixel_at_map_image;
        try done; try by apply map_image_well_formed.
      unfold weighted_grayscale_color. by rewrite sepia_tint_color_gray.
  - exists white_pixel_image. eexists _, _.
    split; [by_computation|]. split; [vm_compute; reflexivity|].
    split; [vm_compute; reflexivity|]. by vm_compute.
Qed.

Lemma C8_sepia_tint_witness :
  exists gray out,
    weighted_grayscale sample_image = Ok gray /\
    sepia_tint sample_image = Ok out /\
    forall x y, in_range sample_image x y ->
      exists v,
        get_color gray x y = Ok (RGB v v v) /\ 0 <= v <= 255 /\
        get_color out x y
        = Ok (if v <? 63 then
                RGB ((11 * v) `div` 10) v ((9 * v) `div` 10)
              else if v <? 191 then
                RGB ((115 * v) `div` 100
                     - (if (v =? 100) || (v =? 180) then 1 else 0)) v
                    ((85 * v) `div` 100)
              else
                RGB ((108 * v) `div` 100) v ((93 * v) `div` 100)).
Proof. apply (proj1 C8_sepia_tint sample_image). by_computation. Defined.

(** C9. On the 3x3 grid of mid-gray (128,128,128) pixels,
    [black_and_white_and_gray] returns the same grid, [extreme_contrast]
    the all-white grid and [posterize] the grid of (159,159,159). *)
Theorem C9_mid_gray_example :
  black_and_white_and_gray mid_gray_image
    = Ok (uniform_image 3 3 (RGB 128 128 128)) /\
  extreme_contrast mid_gray_image = Ok (uniform_image 3 3 (RGB 255 255 255)) /\
  posterize mid_gray_image = Ok (uniform_image 3 3 (RGB 159 159 159)).
Proof. repeat split; vm_compute; reflexivity. Qed.

(** C10. On a grid of width at most 2 or height at most 2, the filters
    that loop over the interior return a grid identical to their input
    and raise nothing. *)
Theorem C10_small_grids_unchanged threshold f g :
  f ∈ interior_filters threshold ->
  get_width g <= 2 \/ get_height g <= 2 ->
  f g = Ok g /\ ~ raises (f g).
Proof.
  intros Hf Hsmall.
  rewrite (interior_filters_small threshold f g Hf Hsmall).
  split; [done|]. by intros [e He].
Qed.

Lemma C10_small_grids_unchanged_witness :
  blur_better narrow_image = Ok narrow_image /\
  ~ raises (blur_better narrow_image).
Proof.
  apply (C10_small_grids_unchanged 50 blur_better narrow_image).
  - unfold interior_filters. do 2 constructor 2. constructor 1.
  - left. vm_compute. discriminate.
Defined.

(** ** Further properties: the point filters *)

Lemma map_image_valid g image :
  (forall c, valid_color c -> valid_color (g c)) ->
  valid_image image -> valid_image (map_image g image).
Proof.
  intros Hg [Hwf Hval]. split; [by apply map_image_well_formed|].
  cbn. apply Forall_fmap. eapply Forall_impl; [exact Hval|]. exact Hg.
Qed.

Lemma map_image_idempotent g image :
  (forall c, g (g c) = g c) -> map_image g (map_image g image) = map_image g image.
Proof.
  intros Hg. rewrite map_image_compose. apply map_image_ext.
  apply Forall_forall. intros c _. apply Hg.
Qed.

Lemma brightness_of_range c :
  valid_color c -> 0 <= brightness_of c <= 255.
Proof.
  destruct c as [r g b]. intros (Hr & Hg & Hb); cbn in *.
  split; [apply Z.div_pos; lia | apply Z.div_le_upper_bound; lia].
Qed.

Lemma brightness_of_gray v : brightness_of (RGB v v v) = v.
Proof. cbn. replace (v + v + v) with (v * 3) by lia. by apply Z.div_mul. Qed.

(** X1. [grayscale] gives every pixel the floor of the mean of its three
    channels on all three channels, and keeps the channels in 0..255. *)
Theorem grayscale_pixels img :
  valid_image img ->
  exists out,
    grayscale img = Ok out /\ valid_image out /\
    forall x y r g b, get_color img x y = Ok (RGB r g b) ->
      get_color out x y
      = Ok (RGB ((r + g + b) `div` 3) ((r + g + b) `div` 3)
                ((r + g + b) `div` 3)).
Proof.
  intros Hval. pose proof Hval as [Hwf _]. eexists.
  split; [by apply grayscale_ok|]. split.
  - apply map_image_valid; [|done]. intros c Hc.
    pose proof (brightness_of_range c Hc). destruct c as [r g b].
    unfold valid_color; cbn in *. lia.
  - intros x y r g b Hget. by rewrite (get_color_map_image _ _ _ _ _ Hget).
Qed.

Lemma grayscale_pixels_witness :
  exists out,
    grayscale sample_image = Ok out /\ valid_image out /\
    forall x y r g b, get_color sample_image x y = Ok (RGB r g b) ->
      get_color out x y
      = Ok (RGB ((r + g + b) `div` 3) ((r + g + b) `div` 3)
                ((r + g + b) `div` 3)).
Proof. apply (grayscale_pixels sample_image). by_computation. Defined.

(** X2. [grayscale] is idempotent: a second pass returns the grid of the
    first. *)
Theorem grayscale_idempotent img :
  valid_image img ->
  exists gray, grayscale img = Ok gray /\ grayscale gray = Ok gray.
Proof.
  intros [Hwf _]. eexists. split; [by apply grayscale_ok|].
  rewrite grayscale_ok by by apply map_image_well_formed.
  f_equal. apply map_image_idempotent. intros [r g b].
  unfold grayscale_color. change ((r + g + b) `div` 3) with (brightness_of (RGB r g b)).
  generalize (brightness_of (RGB r g b)). intros v.
  change ((v + v + v) `div` 3) with (brightness_of (RGB v v v)).
  by rewrite brightness_of_gray.
Qed.

Lemma grayscale_idempotent_witness :
  exists gray, grayscale sample_image = Ok gray /\ grayscale gray = Ok gray.
Proof. apply (grayscale_idempotent sample_image). by_computation. Defined.

(** X3. [black_and_white] paints a pixel black when the floor of the mean
    of its channels is below 128 and white otherwise; a second pass
    changes nothing, and a [grayscale] pass before it changes nothing. *)
Theorem black_and_white_two_tone img :
  valid_image img ->
  exists out gray,
    black_and_white img = Ok out /\
    (forall x y r g b, get_color img x y = Ok (RGB r g b) ->
       get_color out x y
       = Ok (if (r + g + b) `div` 3 <? 128 then RGB 0 0 0
             else RGB 255 255 255)) /\
    black_and_white out = Ok out /\
    grayscale img = Ok gray /\ black_and_white gray = Ok out.
Proof.
  intros [Hwf _]. eexists _, _. split; [by apply black_and_white_ok|].
  split; [|split; [|split; [by apply grayscale_ok|]]].
  - intros x y r g b Hget. by rewrite (get_color_map_image _ _ _ _ _ Hget).
  - rewrite black_and_white_ok by by apply map_image_well_formed.
    f_equal. apply map_image_idempotent. intros c.
    unfold black_and_white_color. by destruct (brightness_of c <? 128).
  - rewrite black_and_white_ok by by apply map_image_well_formed.
    f_equal. rewrite map_image_compose. apply map_image_ext.
    apply Forall_forall. intros [r g b] _. cbn -[brightness_of].
    unfold black_and_white_color. rewrite brightness_of_gray. done.
Qed.

Lemma black_and_white_two_tone_witness :
  exists out gray,
    black_and_white sample_image = Ok out /\
    (forall x y r g b, get_color sample_image x y = Ok (RGB r g b) ->
       get_color out x y
       = Ok (if (r + g + b) `div` 3 <? 128 then RGB 0 0 0
             else RGB 255 255 255)) /\
    black_and_white out = Ok out /\
    grayscale sample_image = Ok gray /\ black_and_white gray = Ok out.
Proof. apply (black_and_white_two_tone sample_image). by_computation. Defined.

(** X4. [black_and_white_and_gray] paints a pixel black, mid-gray or white
    as the floor of the mean of its channels is below 85, below 171 or
    above; a second pass changes nothing, and a [grayscale] pass before it
    changes nothing. *)
Theorem black_and_white_and_gray_three_tone img :
  valid_image img ->
  exists out gray,
    black_and_white_and_gray img = Ok out /\
    (forall x y r g b, get_color img x y = Ok (RGB r g b) ->
       get_color out x y
       = Ok (if (r + g + b) `div` 3 <? 85 then RGB 0 0 0
             else if (r + g + b) `div` 3 <? 171 then RGB 128 128 128
             else RGB 255 255 255)) /\
    black_and_white_and_gray out = Ok out /\
    grayscale img = Ok gray /\ black_and_white_and_gray gray = Ok out.
Proof.
  intros [Hwf _]. eexists _, _.
  split; [by apply black_and_white_and_gray_ok|].
  split; [|split; [|split; [by apply grayscale_ok|]]].
  - intros x y r g b Hget. by rewrite (get_color_map_image _ _ _ _ _ Hget).
  - rewrite black_and_white_and_gray_ok by by apply map_image_well_formed.
    f_equal. apply map_image_idempotent. intros c.
    unfold black_and_white_and_gray_color.
    by destruct (brightness_of c <? 85), (brightness_of c <? 171).
  - rewrite black_and_white_and_gray_ok by by apply map_image_well_formed.
    f_equal. rewrite map_image_compose. apply map_image_ext.
    apply Forall_forall. intros [r g b] _. cbn -[brightness_of].
    unfold black_and_white_and_gray_color. rewrite brightness_of_gray. done.
Qed.

Lemma black_and_white_and_gray_three_tone_witness :
  exists out gray,
    black_and_white_and_gray sample_image = Ok out /\
    (forall x y r g b, get_color sample_image x y = Ok (RGB r g b) ->
       get_color out x y
       = Ok (if (r + g + b) `div` 3 <? 85 then RGB 0 0 0
             else if (r + g + b) `div` 3 <? 171 then RGB 128 128 128
             else RGB 255 255 255)) /\
    black_and_white_and_gray out = Ok out /\
    grayscale sample_image = Ok gray /\
    black_and_white_and_gray gray = Ok out.
Proof.
  apply (black_and_white_and_gray_three_tone sample_image). by_computation.
Defined.

(** X5. [extreme_contrast] sends each channel below 128 to 0 and each
    other channel to 255, independently; a second pass changes nothing. *)
Theorem extreme_contrast_channels img :
  valid_image img ->
  exists out,
    extreme_contrast img = Ok out /\ valid_image out /\
    (forall x y r g b, get_color img x y = Ok (RGB r g b) ->
       get_color out x y
       = Ok (RGB (if r <? 128 then 0 else 255) (if g <? 128 then 0 else 255)
                 (if b <? 128 then 0 else 255))) /\
    extreme_contrast out = Ok out.
Proof.
  intros Hval. pose proof Hval as [Hwf _]. eexists.
  split; [by apply extreme_contrast_ok|]. split; [|split].
  - apply map_image_valid; [|done]. intros [r g b] _.
    unfold valid_color; cbn. repeat case_match; lia.
  - intros x y r g b Hget. by rewrite (get_color_map_image _ _ _ _ _ Hget).
  - rewrite extreme_contrast_ok by by apply map_image_well_formed.
    f_equal. apply map_image_idempotent. intros [r g b]; cbn.
    by destruct (r <? 128), (g <? 128), (b <? 128).
Qed.

Lemma extreme_contrast_channels_witness :
  exists out,
    extreme_contrast sample_image = Ok out /\ valid_image out /\
    (forall x y r g b, get_color sample_image x y = Ok (RGB r g b) ->
       get_color out x y
       = Ok (RGB (if r <? 128 then 0 else 255) (if g <? 128 then 0 else 255)
                 (if b <? 128 then 0 else 255))) /\
    extreme_contrast out = Ok out.
Proof. apply (extreme_contrast_channels sample_image). by_computation. Defined.

(** X6. [negative] and [extreme_contrast] commute: either order gives the
    same grid. *)
Theorem negative_extreme_contrast_commute img :
  valid_image img ->
  exists inverted contrasted out,
    negative img = Ok inverted /\ extreme_contrast inverted = Ok out /\
    extreme_contrast img = Ok contrasted /\ negative contrasted = Ok out.
Proof.
  intros [Hwf _]. eexists _, _, _.
  split; [by apply negative_ok|].
  split; [apply extreme_contrast_ok; by apply map_image_well_formed|].
  split; [by apply extreme_contrast_ok|].
  rewrite negative_ok by by apply map_image_well_formed.
  f_equal. rewrite !map_image_compose. apply map_image_ext.
  apply Forall_forall. intros [r g b] _; cbn.
  destruct (Z.ltb_spec r 128), (Z.ltb_spec g 128), (Z.ltb_spec b 128),
    (Z.ltb_spec (255 - r) 128), (Z.ltb_spec (255 - g) 128),
    (Z.ltb_spec (255 - b) 128); first [done | lia].
Qed.

Lemma negative_extreme_contrast_commute_witness :
  exists inverted contrasted out,
    negative sample_image = Ok inverted /\
    extreme_contrast inverted = Ok out /\
    extreme_contrast sample_image = Ok contrasted /\
    negative contrasted = Ok out.
Proof.
  apply (negative_extreme_contrast_commute sample_image). by_computation.
Defined.

(** X7. On 0..255, [_adjust_component] returns the midpoint of the
    quarter of 64 values that holds its argument, so it moves a channel
    by at most 32. *)
Theorem adjust_component_midpoint amount :
  0 <= amount <= 255 ->
  _adjust_component amount = 64 * (amount `div` 64) + 31 /\
  amount - 32 <= _adjust_component amount <= amount + 31.
Proof.
  intros H. unfold _adjust_component.
  destruct (Z.ltb_spec amount 64), (Z.ltb_spec amount 128),
    (Z.ltb_spec amount 192); try lia.
  - replace (amount `div` 64) with 0; [lia|]. symmetry. apply Z.div_small. lia.
  - replace (amount `div` 64) with 1; [lia|].
    apply (Z.div_unique amount 64 1 (amount - 64)); lia.
  - replace (amount `div` 64) with 2; [lia|].
    apply (Z.div_unique amount 64 2 (amount - 128)); lia.
  - replace (amount `div` 64) with 3; [lia|].
    apply (Z.div_unique amount 64 3 (amount - 192)); lia.
Qed.

Lemma adjust_component_midpoint_witness :
  _adjust_component 142 = 64 * (142 `div` 64) + 31 /\
  142 - 32 <= _adjust_component 142 <= 142 + 31.
Proof. apply (adjust_component_midpoint 142). lia. Defined.

(** X8. [_adjust_component] is monotone and takes no value outside
    31..223, whatever integer it is given: an argument below 0 gives 31
    and one above 255 gives 223. *)
Theorem adjust_component_monotone a b :
  a <= b ->
  _adjust_component a <= _adjust_component b /\
  31 <= _adjust_component a <= 223 /\
  (a < 0 -> _adjust_component a = 31) /\
  (255 < b -> _adjust_component b = 223).
Proof.
  intros H. unfold _adjust_component.
  destruct (Z.ltb_spec a 64), (Z.ltb_spec a 128), (Z.ltb_spec a 192),
    (Z.ltb_spec b 64), (Z.ltb_spec b 128), (Z.ltb_spec b 192); lia.
Qed.

Lemma adjust_component_monotone_witness :
  _adjust_component (-5) <= _adjust_component 300 /\
  31 <= _adjust_component (-5) <= 223 /\
  (-5 < 0 -> _adjust_component (-5) = 31) /\
  (255 < 300 -> _adjust_component 300 = 223).
Proof. apply (adjust_component_monotone (-5) 300). lia. Defined.

Lemma adjust_component_range a : 31 <= _adjust_component a <= 223.
Proof.
  unfold _adjust_component.
  destruct (a <? 64), (a <? 128), (a <? 192); lia.
Qed.

(** X9. [posterize] replaces every channel by [_adjust_component] of it,
    keeps the channels in 0..255, and is idempotent. *)
Theorem posterize_pixels img :
  valid_image img ->
  exists out,
    posterize img = Ok out /\ valid_image out /\
    (forall x y r g b, get_color img x y = Ok (RGB r g b) ->
       get_color out x y
       = Ok (RGB (_adjust_component r) (_adjust_component g)
                 (_adjust_component b))) /\
    posterize out = Ok out.
Proof.
  intros Hval. pose proof Hval as [Hwf _]. eexists.
  split; [by apply posterize_ok|]. split; [|split].
  - apply map_image_valid; [|done]. intros [r g b] _.
    pose proof (adjust_component_range r). pose proof (adjust_component_range g).
    pose proof (adjust_component_range b). unfold valid_color; cbn. lia.
  - intros x y r g b Hget. by rewrite (get_color_map_image _ _ _ _ _ Hget).
  - rewrite posterize_ok by by apply map_image_well_formed.
    f_equal. apply map_image_idempotent. intros [r g b]; cbn.
    assert (Hidem : forall a, _adjust_component (_adjust_component a)
                              = _adjust_component a).
    { intros a. unfold _adjust_component.
      by destruct (a <? 64), (a <? 128), (a <? 192). }
    by rewrite !Hidem.
Qed.

Lemma posterize_pixels_witness :
  exists out,
    posterize sample_image = Ok out /\ valid_image out /\
    (forall x y r g b, get_color sample_image x y = Ok (RGB r g b) ->
       get_color out x y
       = Ok (RGB (_adjust_component r) (_adjust_component g)
                 (_adjust_component b))) /\
    posterize out = Ok out.
Proof. apply (posterize_pixels sample_image). by_computation. Defined.

(** X10. [posterize] keeps every channel on its side of 128, so
    [extreme_contrast] after [posterize] gives what [extreme_contrast]
    alone gives. *)
Theorem extreme_contrast_after_posterize img :
  valid_image img ->
  exists posterized out,
    posterize img = Ok posterized /\ extreme_contrast posterized = Ok out /\
    extreme_contrast img = Ok out.
Proof.
  intros [Hwf _]. eexists _, _. split; [by apply posterize_ok|].
  split; [apply extreme_contrast_ok; by apply map_image_well_formed|].
  rewrite extreme_contrast_ok by done. f_equal.
  rewrite map_image_compose. apply map_image_ext.
  apply Forall_forall. intros [r g b] _; cbn. unfold _adjust_component.
  destruct (Z.ltb_spec r 64), (Z.ltb_spec r 128), (Z.ltb_spec r 192),
    (Z.ltb_spec g 64), (Z.ltb_spec g 128), (Z.ltb_spec g 192),
    (Z.ltb_spec b 64), (Z.ltb_spec b 128), (Z.ltb_spec b 192);
    first [done | lia].
Qed.

Lemma extreme_contrast_after_posterize_witness :
  exists posterized out,
    posterize sample_image = Ok posterized /\
    extreme_contrast posterized = Ok out /\
    extreme_contrast sample_image = Ok out.
Proof.
  apply (extreme_contrast_after_posterize sample_image). by_computation.
Defined.

Lemma get_color_elem_of image x y c :
  get_color image x y = Ok c -> c ∈ pixels image.
Proof. intros H%get_color_lookup. by eapply list_elem_of_lookup_2. Qed.

Lemma get_color_valid image x y c :
  valid_image image -> get_color image x y = Ok c -> valid_color c.
Proof.
  intros [_ Hval] H%get_color_elem_of. rewrite Forall_forall in Hval. auto.
Qed.

(** X11. A threshold outside 0..256 does not make [solarize] fail: an
    [int] threshold of 0 or less, or a NaN, leaves the grid unchanged, and
    an [int] threshold of 256 or more gives what [negative] gives. *)
Theorem solarize_out_of_range_threshold img (lo hi : Z) :
  valid_image img -> lo <= 0 -> 256 <= hi ->
  solarize img lo = Ok img /\
  solarize img not_a_number = Ok img /\
  exists inverted, negative img = Ok inverted /\ solarize img hi = Ok inverted.
Proof.
  intros [Hwf Hval] Hlo Hhi. rewrite !solarize_ok, negative_ok by done.
  split; [|split].
  - f_equal. apply map_image_id. eapply Forall_impl; [exact Hval|].
    intros [r g b] (Hr & Hg & Hb); cbn in *.
    by rewrite !(proj2 (Z.ltb_ge _ lo)) by lia.
  - f_equal. apply map_image_id. apply Forall_forall. by intros [r g b] _.
  - eexists. split; [done|]. f_equal. apply map_image_ext.
    eapply Forall_impl; [exact Hval|].
    intros [r g b] (Hr & Hg & Hb); cbn in *.
    by rewrite !(proj2 (Z.ltb_lt _ hi)) by lia.
Qed.

Lemma solarize_out_of_range_threshold_witness :
  solarize sample_image (-7) = Ok sample_image /\
  solarize sample_image not_a_number = Ok sample_image /\
  exists inverted,
    negative sample_image = Ok inverted /\
    solarize sample_image 1000 = Ok inverted.
Proof.
  apply (solarize_out_of_range_threshold sample_image (-7) 1000);
    [by_computation | lia | lia].
Defined.

(** X12. With an [int] threshold of at most 128 (the tests call
    [solarize] with 128), every channel of the result is at least the
    threshold and at most 255, and a second pass with the same threshold
    changes nothing. *)
Theorem solarize_low_threshold img (threshold : Z) :
  valid_image img -> threshold <= 128 ->
  exists out,
    solarize img threshold = Ok out /\
    Forall (all_channels (fun c => threshold <= c <= 255)) (pixels out) /\
    solarize out threshold = Ok out.
Proof.
  intros [Hwf Hval] Ht. eexists. split; [by apply solarize_ok|]. split.
  - cbn. apply Forall_fmap. eapply Forall_impl; [exact Hval|].
    intros [r g b] (Hr & Hg & Hb); cbn in *.
    unfold all_channels; cbn.
    destruct (Z.ltb_spec r threshold), (Z.ltb_spec g threshold),
      (Z.ltb_spec b threshold); lia.
  - rewrite solarize_ok by by apply map_image_well_formed.
    f_equal. rewrite map_image_compose. apply map_image_ext.
    eapply Forall_impl; [exact Hval|].
    intros [r g b] (Hr & Hg & Hb); cbn in *.
    destruct (Z.ltb_spec r threshold), (Z.ltb_spec g threshold),
      (Z.ltb_spec b threshold);
      repeat match goal with
             | |- context [?a <? ?b] => destruct (Z.ltb_spec a b); try lia
             end; done.
Qed.

Lemma solarize_low_threshold_witness :
  exists out,
    solarize sample_image 128 = Ok out /\
    Forall (all_channels (fun c => 128 <= c <= 255)) (pixels out) /\
    solarize out 128 = Ok out.
Proof.
  apply (solarize_low_threshold sample_image 128); [by_computation | lia].
Defined.

(** ** Further properties: the float filters *)

(** X13. [weighted_grayscale] gives every pixel three equal channels [v]
    in 0..255 and raises nothing.  Against the exact weighted sum
    [(299 r + 587 g + 114 b) / 1000], [v] is its floor, or one less when
    the sum is an integer (the binary64 sum may fall just below it). *)
Theorem weighted_grayscale_pixels img :
  valid_image img ->
  exists out,
    weighted_grayscale img = Ok out /\ valid_image out /\
    forall x y r g b, get_color img x y = Ok (RGB r g b) ->
      exists v,
        get_color out x y = Ok (RGB v v v) /\ 0 <= v <= 255 /\
        1000 * v <= 299 * r + 587 * g + 114 * b <= 1000 * v + 1000.
Proof.
  intros Hval. eexists. split; [by apply weighted_grayscale_ok|].
  split; [by apply weighted_grayscale_valid|].
  intros x y r g b Hget.
  pose proof (get_color_valid _ _ _ _ Hval Hget) as (Hr & Hg & Hb).
  destruct (luminance_range r g b Hr Hg Hb) as [_ Hv].
  pose proof (luminance_bracket r g b Hr Hg Hb) as Hbr.
  exists (Float.truncate (luminance r g b)).
  by rewrite (get_color_map_image _ _ _ _ _ Hget).
Qed.

Lemma weighted_grayscale_pixels_witness :
  exists out,
    weighted_grayscale sample_image = Ok out /\ valid_image out /\
    forall x y r g b, get_color sample_image x y = Ok (RGB r g b) ->
      exists v,
        get_color out x y = Ok (RGB v v v) /\ 0 <= v <= 255 /\
        1000 * v <= 299 * r + 587 * g + 114 * b <= 1000 * v + 1000.
Proof. apply (weighted_grayscale_pixels sample_image). by_computation. Defined.

Lemma gray_level_of_gray v :
  0 <= v <= 255 -> v - 1 <= gray_level (RGB v v v) <= v.
Proof.
  intros Hv.
  cut ((v - 1 <=? gray_level (RGB v v v)) && (gray_level (RGB v v v) <=? v)
       = true).
  { intros [H1%Z.leb_le H2%Z.leb_le]%andb_true_iff. lia. }
  revert v Hv.
  apply (channel_cases (fun v => (v - 1 <=? gray_level (RGB v v v))
                                 && (gray_level (RGB v v v) <=? v))).
  vm_compute. reflexivity.
Qed.

(** X14. On a pixel that is already gray, [weighted_grayscale] returns
    the gray value or one less: the three rounded products need not add up
    to the value.  It is therefore not idempotent: the gray value 128
    becomes 127. *)
Theorem weighted_grayscale_on_gray :
  (forall img, valid_image img ->
     exists out,
       weighted_grayscale img = Ok out /\
       forall x y v, get_color img x y = Ok (RGB v v v) ->
         exists u, get_color out x y = Ok (RGB u u u) /\ v - 1 <= u <= v) /\
  weighted_grayscale (uniform_image 1 1 (RGB 128 128 128))
  = Ok (uniform_image 1 1 (RGB 127 127 127)).
Proof.
  split; [|vm_compute; reflexivity].
  intros img Hval. eexists. split; [by apply weighted_grayscale_ok|].
  intros x y v Hget.
  pose proof (get_color_valid _ _ _ _ Hval Hget) as (Hv & _ & _). cbn in Hv.
  exists (gray_level (RGB v v v)).
  split; [by rewrite (get_color_map_image _ _ _ _ _ Hget)|].
  by apply gray_level_of_gray.
Qed.

Lemma weighted_grayscale_on_gray_witness :
  exists out,
    weighted_grayscale mid_gray_image = Ok out /\
    forall x y v, get_color mid_gray_image x y = Ok (RGB v v v) ->
      exists u, get_color out x y = Ok (RGB u u u) /\ v - 1 <= u <= v.
Proof.
  apply (proj1 weighted_grayscale_on_gray mid_gray_image). by_computation.
Defined.

Lemma sepia_tones_table v : 0 <= v <= 255 -> sepia_tones_ok v = true.
Proof. revert v. apply channel_cases. vm_compute. reflexivity. Qed.

(** X15. In the result of [sepia_tint] every pixel has its channels in
    sepia order, blue <= green <= red, with green the gray value of
    [weighted_grayscale]; red is at most 275 and exceeds 255 exactly for
    the gray values from 238 up. *)
Theorem sepia_tint_tones img :
  valid_image img ->
  exists gray out,
    weighted_grayscale img = Ok gray /\ sepia_tint img = Ok out /\
    forall x y v, get_color gray x y = Ok (RGB v v v) ->
      exists r b,
        get_color out x y = Ok (RGB r v b) /\
        0 <= b <= v /\ v <= r <= 275 /\ (255 < r <-> 238 <= v).
Proof.
  intros Hval. eexists _, _. split; [by apply weighted_grayscale_ok|].
  split; [by apply sepia_tint_ok|]. intros x y v Hget.
  pose proof (get_color_valid _ _ _ _ (weighted_grayscale_valid _ Hval) Hget)
    as (Hv & _ & _). cbn in Hv.
  pose proof (sepia_tones_table v Hv) as Htab. unfold sepia_tones_ok in Htab.
  rewrite (get_color_map_image _ _ _ _ _ Hget).
  destruct (sepia_tint_color (RGB v v v)) as [r g b].
  repeat (apply andb_true_iff in Htab as [Htab ?]).
  apply Z.eqb_eq in Htab as ->. exists r, b. split; [done|].
  repeat match goal with
         | H : (_ <=? _) = true |- _ => apply Z.leb_le in H
         | H : bool_decide _ = true |- _ => apply bool_decide_eq_true in H
         end.
  repeat split; tauto || lia.
Qed.

Lemma sepia_tint_tones_witness :
  exists gray out,
    weighted_grayscale sample_image = Ok gray /\
    sepia_tint sample_image = Ok out /\
    forall x y v, get_color gray x y = Ok (RGB v v v) ->
      exists r b,
        get_color out x y = Ok (RGB r v b) /\
        0 <= b <= v /\ v <= r <= 275 /\ (255 < r <-> 238 <= v).
Proof. apply (sepia_tint_tones sample_image). by_computation. Defined.

(** ** Further properties: the neighbourhood filters *)

(** X16. [detect_edges] paints an interior pixel white when its
    brightness minus the brightness of the pixel below is less than the
    threshold, and black otherwise; it leaves the border as it was.  The
    threshold is an [int] (first part, in integer arithmetic) or any
    number, a float included (second part, the comparison taken between
    real numbers); the third part is the result on the sample grid at
    threshold 50. *)
Theorem detect_edges_pixels :
  (forall img (threshold : Z), valid_image img ->
     exists out,
       detect_edges img threshold = Ok out /\
       (forall x y, in_interior img x y ->
          get_color out x y
          = Ok (if brightness_of (pixel_at img x y)
                   - brightness_of (pixel_at img x (y + 1)) <? threshold
                then RGB 255 255 255 else RGB 0 0 0)) /\
       (forall x y, on_border img x y ->
          get_color out x y = get_color img x y)) /\
  (forall img (threshold : number), valid_image img ->
     exists out,
       detect_edges img threshold = Ok out /\
       (forall x y, in_interior img x y ->
          let below :=
            threshold_above threshold
              (brightness_of (pixel_at img x y)
               - brightness_of (pixel_at img x (y + 1))) in
          (below -> get_color out x y = Ok (RGB 255 255 255)) /\
          (~ below -> get_color out x y = Ok (RGB 0 0 0))) /\
       (forall x y, on_border img x y ->
          get_color out x y = get_color img x y)) /\
  detect_edges sample_image 50
  = Ok (mkImage 4 4
          [RGB 0 0 0;      RGB 10 200 30;   RGB 255 255 255; RGB 64 128 192;
           RGB 12 34 56;   RGB 0 0 0;       RGB 255 255 255; RGB 1 2 3;
           RGB 200 100 50; RGB 255 255 255; RGB 255 255 255; RGB 255 0 0;
           RGB 7 77 177;   RGB 0 255 0;     RGB 63 191 237;  RGB 85 171 84]).
Proof.
  assert (Hgen : forall img (threshold : number), well_formed img ->
            exists out,
              detect_edges img threshold = Ok out /\
              (forall x y, in_interior img x y ->
                 get_color out x y = Ok (detect_edges_color img threshold x y)) /\
              (forall x y, on_border img x y ->
                 get_color out x y = get_color img x y)).
  { intros img threshold Hwf.
    destruct (detect_edges_ok img threshold Hwf) as (out & Hrun & Hrw).
    apply interior_rewrite_get in Hrw as (_ & _ & Hi & Hb); [|done].
    by exists out. }
  split; [|split; [|vm_compute; reflexivity]].
  - intros img threshold [Hwf _].
    destruct (Hgen img threshold Hwf) as (out & Hrun & Hi & Hb).
    exists out. split; [done|]. split; [|done]. intros x y Hp.
    by rewrite (Hi x y Hp).
  - intros img threshold [Hwf _].
    destruct (Hgen img threshold Hwf) as (out & Hrun & Hi & Hb).
    exists out. split; [done|]. split; [|done]. intros x y Hp.
    rewrite (Hi x y Hp). unfold detect_edges_color. cbn zeta.
    rewrite <- py_lt_above.
    destruct (py_lt _ threshold); split; intros H; done.
Qed.

Lemma detect_edges_pixels_witness :
  exists out,
    detect_edges sample_image 50 = Ok out /\
    (forall x y, in_interior sample_image x y ->
       get_color out x y
       = Ok (if brightness_of (pixel_at sample_image x y)
                - brightness_of (pixel_at sample_image x (y + 1)) <? 50
             then RGB 255 255 255 else RGB 0 0 0)) /\
    (forall x y, on_border sample_image x y ->
       get_color out x y = get_color sample_image x y).
Proof.
  apply (proj1 detect_edges_pixels sample_image 50). by_computation.
Defined.

(** X17. With a NaN threshold no comparison holds: [detect_edges] paints
    the whole interior black and [detect_edges_better] paints it white. *)
Theorem edge_detection_nan_threshold img :
  valid_image img ->
  exists edges better,
    detect_edges img not_a_number = Ok edges /\
    detect_edges_better img not_a_number = Ok better /\
    forall x y, in_interior img x y ->
      get_color edges x y = Ok (RGB 0 0 0) /\
      get_color better x y = Ok (RGB 255 255 255).
Proof.
  intros [Hwf _].
  destruct (detect_edges_ok img not_a_number Hwf) as (edges & Hrun1 & Hrw1).
  destruct (detect_edges_better_ok img not_a_number Hwf)
    as (better & Hrun2 & Hrw2).
  apply interior_rewrite_get in Hrw1 as (_ & _ & Hi1 & _); [|done].
  apply interior_rewrite_get in Hrw2 as (_ & _ & Hi2 & _); [|done].
  exists edges, better. do 2 (split; [done|]). intros x y Hp.
  by rewrite (Hi1 x y Hp), (Hi2 x y Hp).
Qed.

Lemma edge_detection_nan_threshold_witness :
  exists edges better,
    detect_edges sample_image not_a_number = Ok edges /\
    detect_edges_better sample_image not_a_number = Ok better /\
    forall x y, in_interior sample_image x y ->
      get_color edges x y = Ok (RGB 0 0 0) /\
      get_color better x y = Ok (RGB 255 255 255).
Proof.
  apply (edge_detection_nan_threshold sample_image). by_computation.
Defined.

Lemma uniform_image_well_formed w h c :
  0 <= w -> 0 <= h -> well_formed (uniform_image w h c).
Proof.
  intros Hw Hh. unfold well_formed, uniform_image; cbn.
  by rewrite length_replicate.
Qed.

Lemma pixel_at_uniform_image w h c x y :
  0 <= x < w -> 0 <= y < h -> pixel_at (uniform_image w h c) x y = c.
Proof.
  intros Hx Hy.
  assert (Hr : in_range (uniform_image w h c) x y) by done.
  pose proof (pixel_at_lookup _ x y
                (uniform_image_well_formed w h c ltac:(lia) ltac:(lia)) Hr) as H.
  cbn in H. apply lookup_replicate in H as [H _]. done.
Qed.

(** X18. [blur_better] returns a grid of one colour unchanged, whatever
    the colour and the size. *)
Theorem blur_better_uniform w h c :
  0 <= w -> 0 <= h ->
  blur_better (uniform_image w h c) = Ok (uniform_image w h c).
Proof.
  intros Hw Hh. set (img := uniform_image w h c).
  assert (Hwf : well_formed img) by by apply uniform_image_well_formed.
  destruct (blur_better_ok img Hwf) as (out & -> & Hwf' & Hsz & Hin & Hout).
  f_equal. apply image_ext; [done..|]. intros x y Hr.
  apply (in_range_same_size _ img) in Hr; [|done].
  destruct (decide ((x, y) ∈ interior img)) as [Hp|Hp]; [|by apply Hout].
  rewrite (Hin x y Hp). apply elem_of_interior in Hp as [Hx Hy].
  change (get_width img) with w in *. change (get_height img) with h in *.
  unfold blur_better_color, channel_sum, window; cbn -[Z.div Z.add].
  unfold img. rewrite !pixel_at_uniform_image by lia.
  destruct c as [r g b]; cbn -[Z.div Z.add].
  f_equal; symmetry; apply Z.div_unique_exact; lia.
Qed.

Lemma blur_better_uniform_witness :
  blur_better (uniform_image 5 4 (RGB 10 200 30))
  = Ok (uniform_image 5 4 (RGB 10 200 30)).
Proof. apply (blur_better_uniform 5 4 (RGB 10 200 30)); lia. Defined.

(** X19. On a grid of one colour every contrast is 0, and the two edge
    detectors treat an [int] threshold differently: [detect_edges] paints
    the interior white when the threshold is positive and black
    otherwise, [detect_edges_better] paints it black when the threshold
    is negative and white otherwise.  At threshold 0 they disagree. *)
Theorem edge_detection_uniform w h c (threshold : Z) :
  0 <= w -> 0 <= h ->
  exists edges better,
    detect_edges (uniform_image w h c) threshold = Ok edges /\
    detect_edges_better (uniform_image w h c) threshold = Ok better /\
    forall x y, in_interior (uniform_image w h c) x y ->
      get_color edges x y
      = Ok (if 0 <? threshold then RGB 255 255 255 else RGB 0 0 0) /\
      get_color better x y
      = Ok (if threshold <? 0 then RGB 0 0 0 else RGB 255 255 255).
Proof.
  intros Hw Hh. set (img := uniform_image w h c).
  assert (Hwf : well_formed img) by by apply uniform_image_well_formed.
  destruct (detect_edges_ok img threshold Hwf) as (edges & Hrun1 & Hrw1).
  destruct (detect_edges_better_ok img threshold Hwf)
    as (better & Hrun2 & Hrw2).
  apply interior_rewrite_get in Hrw1 as (_ & _ & Hi1 & _); [|done].
  apply interior_rewrite_get in Hrw2 as (_ & _ & Hi2 & _); [|done].
  exists edges, better. do 2 (split; [done|]). intros x y Hp.
  rewrite (Hi1 x y Hp), (Hi2 x y Hp). destruct Hp as [Hx Hy].
  change (get_width img) with w in *. change (get_height img) with h in *.
  unfold detect_edges_color, detect_edges_better_color, img.
  rewrite !pixel_at_uniform_image by lia. rewrite Z.sub_diag.
  unfold py_gt; cbn. rewrite orb_diag. done.
Qed.

Lemma edge_detection_uniform_witness :
  exists edges better,
    detect_edges (uniform_image 5 4 (RGB 10 200 30)) 0 = Ok edges /\
    detect_edges_better (uniform_image 5 4 (RGB 10 200 30)) 0 = Ok better /\
    forall x y, in_interior (uniform_image 5 4 (RGB 10 200 30)) x y ->
      get_color edges x y
      = Ok (if 0 <? 0 then RGB 255 255 255 else RGB 0 0 0) /\
      get_color better x y
      = Ok (if 0 <? 0 then RGB 0 0 0 else RGB 255 255 255).
Proof. apply (edge_detection_uniform 5 4 (RGB 10 200 30) 0); lia. Defined.

(** ** Further properties: the flips *)

Lemma coord_of_in_range image i :
  well_formed image -> (i < length (pixels image))%nat ->
  in_range image (coord_of image i).1 (coord_of image i).2 /\
  offset image (coord_of image i).1 (coord_of image i).2 = i.
Proof.
  intros (Hw & Hh & Hlen) Hi. rewrite Hlen in Hi. unfold coord_of; cbn.
  set (w := get_width image) in *. set (h := get_height image) in *.
  assert (0 < w) by nia.
  pose proof (Z.mod_pos_bound (Z.of_nat i) w ltac:(lia)) as Hx.
  pose proof (Z.div_mod (Z.of_nat i) w ltac:(lia)) as Hdm.
  assert (0 <= Z.of_nat i `div` w < h) by nia.
  split; [done|]. unfold offset. fold w. lia.
Qed.

Lemma coord_of_offset image x y :
  in_range image x y -> coord_of image (offset image x y) = (x, y).
Proof.
  intros [Hx Hy]. unfold coord_of, offset.
  rewrite Z2Nat.id by nia. f_equal.
  - rewrite Z.add_comm, Z.mod_add by lia. apply Z.mod_small. lia.
  - symmetry. apply (Z.div_unique _ _ y x); lia.
Qed.

Lemma lookup_pixel_at image i c :
  well_formed image -> pixels image !! i = Some c ->
  in_range image (coord_of image i).1 (coord_of image i).2 /\
  pixel_at image (coord_of image i).1 (coord_of image i).2 = c.
Proof.
  intros Hwf Hi.
  destruct (coord_of_in_range image i Hwf) as [Hr Hoff];
    [by eapply lookup_lt_Some|].
  split; [done|]. pose proof (pixel_at_lookup _ _ _ Hwf Hr) as H.
  rewrite Hoff in H. congruence.
Qed.

Lemma Forall_pixels (P : Color -> Prop) image :
  well_formed image ->
  (forall x y, in_range image x y -> P (pixel_at image x y)) ->
  Forall P (pixels image).
Proof.
  intros Hwf HP. apply Forall_lookup_2. intros i c Hi.
  destruct (lookup_pixel_at image i c Hwf Hi) as [Hr <-]. by apply HP.
Qed.

Lemma interior_rewrite_pixel_at image out val x y :
  interior_rewrite image out val -> in_range image x y ->
  pixel_at out x y
  = if decide ((x, y) ∈ interior image) then val x y else pixel_at image x y.
Proof.
  intros (_ & _ & Hin & Hout) Hr. case_decide; [by apply Hin | by apply Hout].
Qed.

Lemma interior_rewrite_valid image out val :
  valid_image image -> interior_rewrite image out val ->
  (forall x y, (x, y) ∈ interior image -> valid_color (val x y)) ->
  valid_image out.
Proof.
  intros Hval Hrw Hv. pose proof Hrw as (Hwf' & Hsz & _).
  split; [done|]. apply Forall_pixels; [done|]. intros x y Hr.
  apply (in_range_same_size _ image) in Hr; [|done].
  rewrite (interior_rewrite_pixel_at _ _ _ _ _ Hrw Hr).
  case_decide; [by apply Hv | by apply valid_pixel_at].
Qed.

(** What the two flips share: a loop that copies each interior colour to
    a mirror image of its coordinate. *)
Section flip.
Context (flip : Image -> result Image) (mirror : Image -> Z * Z -> Z * Z).
Context `{!forall image, Inj (=) (=) (mirror image)}.
Hypothesis flip_ok : forall image, well_formed image ->
  exists out, flip image = Ok out /\
    interior_rewrite image out (fun x y =>
      pixel_at image (mirror image (x, y)).1 (mirror image (x, y)).2).
Hypothesis mirror_size : forall a b p,
  same_size a b -> mirror a p = mirror b p.
Hypothesis mirror_interior : forall image p,
  p ∈ interior image <-> mirror image p ∈ interior image.
Hypothesis mirror_involutive : forall image p,
  mirror image (mirror image p) = p.

Lemma interior_same_size a b : same_size a b -> interior a = interior b.
Proof. intros [Hw Hh]. unfold interior. by rewrite Hw, Hh. Qed.

Lemma flip_twice image :
  well_formed image ->
  exists once, flip image = Ok once /\ flip once = Ok image.
Proof.
  intros Hwf. destruct (flip_ok image Hwf) as (once & Hrun1 & Hrw1).
  pose proof Hrw1 as (Hwf1 & Hsz1 & _).
  destruct (flip_ok once Hwf1) as (twice & Hrun2 & Hrw2).
  pose proof Hrw2 as (Hwf2 & Hsz2 & _).
  exists once. split; [done|]. rewrite Hrun2. f_equal.
  assert (Hsz : same_size twice image).
  { destruct Hsz1, Hsz2. split; congruence. }
  apply image_ext; [done..|]. intros x y Hr.
  assert (Hr1 : in_range once x y) by by apply (in_range_same_size twice).
  assert (Hr0 : in_range image x y) by by apply (in_range_same_size once).
  rewrite (interior_rewrite_pixel_at _ _ _ _ _ Hrw2 Hr1).
  rewrite (interior_same_size once image Hsz1).
  case_decide as Hp.
  - rewrite (mirror_size once image _ Hsz1).
    pose proof (proj1 (mirror_interior image (x, y)) Hp) as Hm.
    destruct (mirror image (x, y)) as [x' y'] eqn:Em; cbn.
    rewrite (interior_rewrite_pixel_at _ _ _ _ _ Hrw1)
      by by apply interior_in_range.
    rewrite decide_True by done. rewrite <- Em, mirror_involutive. done.
  - rewrite (interior_rewrite_pixel_at _ _ _ _ _ Hrw1 Hr0).
    by rewrite decide_False.
Qed.

Lemma flip_map_image g image :
  well_formed image ->
  exists flipped out,
    flip image = Ok flipped /\ flip (map_image g image) = Ok out /\
    out = map_image g flipped.
Proof.
  intros Hwf. destruct (flip_ok image Hwf) as (flipped & Hrun1 & Hrw1).
  pose proof Hrw1 as (Hwf1 & Hsz1 & _).
  assert (Hwfg : well_formed (map_image g image))
    by by apply map_image_well_formed.
  destruct (flip_ok _ Hwfg) as (out & Hrun2 & Hrw2).
  pose proof Hrw2 as (Hwf2 & Hsz2 & _).
  exists flipped, out. do 2 (split; [done|]).
  apply image_ext; [done | by apply map_image_well_formed | |].
  { destruct Hsz1, Hsz2. split; cbn in *; congruence. }
  intros x y Hr.
  assert (Hrg : in_range (map_image g image) x y)
    by by apply (in_range_same_size out).
  assert (Hr0 : in_range image x y) by done.
  assert (Hr1 : in_range flipped x y).
  { destruct Hsz1 as [Hw Hh]. unfold in_range. by rewrite Hw, Hh. }
  rewrite (interior_rewrite_pixel_at _ _ _ _ _ Hrw2 Hrg).
  rewrite (pixel_at_map_image g flipped) by done.
  rewrite (interior_rewrite_pixel_at _ _ _ _ _ Hrw1 Hr0).
  change (interior (map_image g image)) with (interior image).
  rewrite (mirror_size (map_image g image) image) by done.
  case_decide as Hp; [|by apply pixel_at_map_image].
  pose proof (proj1 (mirror_interior image (x, y)) Hp) as Hm.
  destruct (mirror image (x, y)) as [x' y']; cbn.
  apply pixel_at_map_image; [done | by apply interior_in_range].
Qed.

Lemma flip_valid image :
  valid_image image ->
  exists out, flip image = Ok out /\ valid_image out.
Proof.
  intros Hval. destruct (flip_ok image (proj1 Hval)) as (out & Hrun & Hrw).
  exists out. split; [done|].
  apply (interior_rewrite_valid image out _ Hval Hrw). intros x y Hp.
  pose proof (proj1 (mirror_interior image (x, y)) Hp) as Hm.
  destruct (mirror image (x, y)) as [x' y']; cbn.
  apply valid_pixel_at; [done | by apply interior_in_range].
Qed.

Lemma flip_source_inj image :
  well_formed image -> Inj (=) (=) (flip_source mirror image).
Proof.
  intros Hwf.
  assert (Hsrc : forall i,
    (i < length (pixels image))%nat -> coord_of image i ∈ interior image ->
    (offset image (mirror image (coord_of image i)).1
                  (mirror image (coord_of image i)).2
     < length (pixels image))%nat /\
    coord_of image
      (offset image (mirror image (coord_of image i)).1
                    (mirror image (coord_of image i)).2)
    = mirror image (coord_of image i)).
  { intros i Hi Hp. apply mirror_interior in Hp.
    destruct (mirror image (coord_of image i)) as [x' y']; cbn.
    apply interior_in_range in Hp.
    split; [by apply offset_lt | by apply coord_of_offset]. }
  intros i j. unfold flip_source.
  destruct (decide _) as [[Hi Hpi]|Hni], (decide _) as [[Hj Hpj]|Hnj];
    intros E; [| | |done].
  - destruct (Hsrc i Hi Hpi) as [_ Ei], (Hsrc j Hj Hpj) as [_ Ej].
    rewrite E, Ej in Ei. apply (inj (mirror image)) in Ei.
    destruct (coord_of_in_range image i Hwf Hi) as [_ <-].
    destruct (coord_of_in_range image j Hwf Hj) as [_ <-].
    by rewrite Ei.
  - destruct (Hsrc i Hi Hpi) as [Hlt Ei]. rewrite E in Hlt, Ei.
    destruct Hnj. split; [done|]. rewrite Ei.
    by apply (proj1 (mirror_interior image _)).
  - destruct (Hsrc j Hj Hpj) as [Hlt Ej]. rewrite <- E in Hlt, Ej.
    destruct Hni. split; [done|]. rewrite Ej.
    by apply (proj1 (mirror_interior image _)).
Qed.

Lemma flip_permutation image :
  well_formed image ->
  exists out, flip image = Ok out /\ pixels out ≡ₚ pixels image.
Proof.
  intros Hwf. destruct (flip_ok image Hwf) as (out & Hrun & Hrw).
  pose proof Hrw as (Hwf' & [Hw Hh] & _).
  exists out. split; [done|].
  assert (Hlen : length (pixels out) = length (pixels image)).
  { destruct Hwf as (_ & _ & ->), Hwf' as (_ & _ & ->). by rewrite Hw, Hh. }
  apply Permutation_inj. split; [done|].
  exists (flip_source mirror image). split; [by apply flip_source_inj|].
  intros i. unfold flip_source.
  destruct (decide (i < length (pixels image))%nat) as [Hi|Hi].
  2: { rewrite decide_False by tauto.
       rewrite !lookup_ge_None_2; [done|lia..]. }
  destruct (coord_of_in_range image i Hwf Hi) as [Hr Hoff].
  assert (Hr' : in_range out (coord_of image i).1 (coord_of image i).2).
  { unfold in_range in *. by rewrite Hw, Hh. }
  assert (Hoff' : offset out (coord_of image i).1 (coord_of image i).2 = i).
  { unfold offset in *. by rewrite Hw. }
  pose proof (pixel_at_lookup _ _ _ Hwf' Hr') as Hout. rewrite Hoff' in Hout.
  rewrite Hout, (interior_rewrite_pixel_at _ _ _ _ _ Hrw Hr).
  destruct (coord_of image i) as [x y] eqn:Ec; cbn [fst snd] in *.
  destruct (decide ((x, y) ∈ interior image)) as [Hp|Hp].
  - rewrite decide_True by done.
    pose proof (proj1 (mirror_interior image (x, y)) Hp) as Hm.
    destruct (mirror image (x, y)) as [x' y']; cbn.
    symmetry. apply pixel_at_lookup; [done | by apply interior_in_range].
  - rewrite decide_False by tauto. rewrite <- Hoff.
    symmetry. by apply pixel_at_lookup.
Qed.
End flip.

Lemma mirror_x_size a b p : same_size a b -> mirror_x a p = mirror_x b p.
Proof. intros [Hw _]. unfold mirror_x. by rewrite Hw. Qed.

Lemma mirror_y_size a b p : same_size a b -> mirror_y a p = mirror_y b p.
Proof. intros [_ Hh]. unfold mirror_y. by rewrite Hh. Qed.

Ltac flips_cases Hflip generic :=
  apply elem_of_cons in Hflip as [->|Hflip];
    [|apply elem_of_cons in Hflip as [->|Hflip]; [|by inversion Hflip]];
  [ apply (generic flip_vertical mirror_x)
  | apply (generic flip_horizontal mirror_y) ];
  first [ exact flip_vertical_ok | exact flip_horizontal_ok
        | exact mirror_x_size | exact mirror_y_size
        | exact mirror_x_interior | exact mirror_y_interior
        | exact mirror_x_involutive | exact mirror_y_involutive
        | idtac ].

(** X20. [flip_vertical] gives the interior pixel [(x, y)] the colour of
    [(w - 1 - x, y)], [flip_horizontal] gives it the colour of
    [(x, h - 1 - y)]; both leave the one-pixel border where it was. *)
Theorem flip_pixels img :
  valid_image img ->
  exists mirrored upended,
    flip_vertical img = Ok mirrored /\ flip_horizontal img = Ok upended /\
    (forall x y, in_interior img x y ->
       get_color mirrored x y = get_color img (get_width img - 1 - x) y /\
       get_color upended x y = get_color img x (get_height img - 1 - y)) /\
    (forall x y, on_border img x y ->
       get_color mirrored x y = get_color img x y /\
       get_color upended x y = get_color img x y).
Proof.
  intros [Hwf _].
  destruct (flip_vertical_ok img Hwf) as (mirrored & Hrun1 & Hrw1).
  destruct (flip_horizontal_ok img Hwf) as (upended & Hrun2 & Hrw2).
  apply interior_rewrite_get in Hrw1 as (_ & _ & Hi1 & Hb1); [|done].
  apply interior_rewrite_get in Hrw2 as (_ & _ & Hi2 & Hb2); [|done].
  exists mirrored, upended. do 2 (split; [done|]). split.
  - intros x y Hp. rewrite (Hi1 x y Hp), (Hi2 x y Hp).
    destruct Hp as [Hx Hy].
    rewrite !(get_color_ok img) by (done || (unfold in_range; lia)).
    split; do 2 f_equal; lia.
  - intros x y Hb. by rewrite Hb1, Hb2.
Qed.

Lemma flip_pixels_witness :
  exists mirrored upended,
    flip_vertical sample_image = Ok mirrored /\
    flip_horizontal sample_image = Ok upended /\
    (forall x y, in_interior sample_image x y ->
       get_color mirrored x y
       = get_color sample_image (get_width sample_image - 1 - x) y /\
       get_color upended x y
       = get_color sample_image x (get_height sample_image - 1 - y)) /\
    (forall x y, on_border sample_image x y ->
       get_color mirrored x y = get_color sample_image x y /\
       get_color upended x y = get_color sample_image x y).
Proof. apply (flip_pixels sample_image). by_computation. Defined.

(** X21. Each flip is its own inverse on whole grids: flipping twice
    returns the input grid. *)
Theorem flips_involutive flip img :
  flip ∈ flips -> valid_image img ->
  exists once, flip img = Ok once /\ flip once = Ok img.
Proof.
  intros Hflip [Hwf _]. revert img Hwf. unfold flips in Hflip.
  flips_cases Hflip @flip_twice; apply _.
Qed.

Lemma flips_involutive_witness :
  exists once,
    flip_horizontal sample_image = Ok once /\
    flip_horizontal once = Ok sample_image.
Proof.
  apply (flips_involutive flip_horizontal sample_image).
  - unfold flips. constructor 2. constructor 1.
  - by_computation.
Defined.

(** X22. The two flips commute: either order gives the same grid. *)
Theorem flips_commute img :
  valid_image img ->
  exists mirrored upended out,
    flip_vertical img = Ok mirrored /\ flip_horizontal mirrored = Ok out /\
    flip_horizontal img = Ok upended /\ flip_vertical upended = Ok out.
Proof.
  intros [Hwf _].
  destruct (flip_vertical_ok img Hwf) as (mirrored & Hrun1 & Hrw1).
  destruct (flip_horizontal_ok img Hwf) as (upended & Hrun2 & Hrw2).
  pose proof Hrw1 as (Hwf1 & [Hw1 Hh1] & _).
  pose proof Hrw2 as (Hwf2 & [Hw2 Hh2] & _).
  destruct (flip_horizontal_ok mirrored Hwf1) as (out & Hrun3 & Hrw3).
  destruct (flip_vertical_ok upended Hwf2) as (out' & Hrun4 & Hrw4).
  pose proof Hrw3 as (Hwf3 & [Hw3 Hh3] & _).
  pose proof Hrw4 as (Hwf4 & [Hw4 Hh4] & _).
  exists mirrored, upended, out. do 3 (split; [done|]).
  rewrite Hrun4. f_equal. apply image_ext; [done..|split; congruence|].
  intros x y Hr.
  assert (Hr0 : in_range img x y) by (unfold in_range in *; congruence).
  assert (Hr1 : in_range mirrored x y) by (unfold in_range in *; congruence).
  assert (Hr2 : in_range upended x y) by (unfold in_range in *; congruence).
  rewrite (interior_rewrite_pixel_at _ _ _ _ _ Hrw4 Hr2).
  rewrite (interior_rewrite_pixel_at _ _ _ _ _ Hrw3 Hr1).
  rewrite (interior_same_size upended img), (interior_same_size mirrored img)
    by done.
  rewrite Hw2, Hh1. case_decide as Hp.
  - apply elem_of_interior in Hp as [Hx Hy].
    rewrite (interior_rewrite_pixel_at _ _ _ _ _ Hrw2),
      (interior_rewrite_pixel_at _ _ _ _ _ Hrw1) by (unfold in_range; lia).
    rewrite !decide_True by (apply elem_of_interior; lia). done.
  - rewrite (interior_rewrite_pixel_at _ _ _ _ _ Hrw2 Hr0),
      (interior_rewrite_pixel_at _ _ _ _ _ Hrw1 Hr0).
    by rewrite !decide_False.
Qed.

Lemma flips_commute_witness :
  exists mirrored upended out,
    flip_vertical sample_image = Ok mirrored /\
    flip_horizontal mirrored = Ok out /\
    flip_horizontal sample_image = Ok upended /\
    flip_vertical upended = Ok out.
Proof. apply (flips_commute sample_image). by_computation. Defined.

(** Each point filter maps one function over the colours of every grid. *)
Lemma point_filters_uniform threshold f :
  f ∈ point_filters threshold ->
  exists g, forall image, valid_image image -> f image = Ok (map_image g image).
Proof.
  intros Hf. unfold point_filters in Hf.
  repeat (apply elem_of_cons in Hf as [->|Hf]); [..|by inversion Hf].
  - eexists. intros image [Hwf _]. by apply grayscale_ok.
  - eexists. intros image Hval. by apply weighted_grayscale_ok.
  - eexists. intros image [Hwf _]. by apply negative_ok.
  - eexists. intros image [Hwf _]. by apply solarize_ok.
  - eexists. intros image [Hwf _]. by apply black_and_white_ok.
  - eexists. intros image [Hwf _]. by apply black_and_white_and_gray_ok.
  - eexists. intros image [Hwf _]. by apply extreme_contrast_ok.
  - exists (sepia_tint_color ∘ weighted_grayscale_color). intros image Hval.
    rewrite sepia_tint_ok by done. by rewrite map_image_compose.
  - eexists. intros image [Hwf _]. by apply posterize_ok.
Qed.

Lemma flips_valid flip img :
  flip ∈ flips -> valid_image img ->
  exists out, flip img = Ok out /\ valid_image out.
Proof.
  intros Hflip. revert img. unfold flips in Hflip.
  flips_cases Hflip @flip_valid.
Qed.

Lemma flips_map_image flip g img :
  flip ∈ flips -> well_formed img ->
  exists flipped out,
    flip img = Ok flipped /\ flip (map_image g img) = Ok out /\
    out = map_image g flipped.
Proof.
  intros Hflip. revert img. unfold flips in Hflip.
  flips_cases Hflip @flip_map_image.
Qed.

(** X23. A flip commutes with every point filter: filtering and then
    flipping gives the grid that flipping and then filtering gives. *)
Theorem flips_commute_with_point_filters threshold f flip img :
  f ∈ point_filters threshold -> flip ∈ flips -> valid_image img ->
  exists filtered flipped out,
    f img = Ok filtered /\ flip filtered = Ok out /\
    flip img = Ok flipped /\ f flipped = Ok out.
Proof.
  intros Hf Hflip Hval.
  destruct (point_filters_uniform threshold f Hf) as [g Hg].
  destruct (flips_map_image flip g img Hflip (proj1 Hval))
    as (flipped & out & Hrun1 & Hrun2 & ->).
  destruct (flips_valid flip img Hflip Hval) as (flipped' & Hrun1' & Hval').
  assert (flipped' = flipped) as -> by congruence.
  exists (map_image g img), flipped, (map_image g flipped).
  split; [by apply Hg|]. split; [done|]. split; [done|]. by apply Hg.
Qed.

Lemma flips_commute_with_point_filters_witness :
  exists filtered flipped out,
    sepia_tint sample_image = Ok filtered /\ flip_vertical filtered = Ok out /\
    flip_vertical sample_image = Ok flipped /\ sepia_tint flipped = Ok out.
Proof.
  apply (flips_commute_with_point_filters 50 sepia_tint flip_vertical
           sample_image).
  - unfold point_filters. do 7 constructor 2. constructor 1.
  - unfold flips. constructor 1.
  - by_computation.
Defined.

(** X24. A flip only moves colours: the pixels of the result are a
    permutation of the pixels of the input. *)
Theorem flips_permute_pixels flip img :
  flip ∈ flips -> valid_image img ->
  exists out, flip img = Ok out /\ pixels out ≡ₚ pixels img.
Proof.
  intros Hflip [Hwf _]. revert img Hwf. unfold flips in Hflip.
  flips_cases Hflip @flip_permutation; apply _.
Qed.

Lemma flips_permute_pixels_witness :
  exists out,
    flip_vertical sample_image = Ok out /\
    pixels out ≡ₚ pixels sample_image.
Proof.
  apply (flips_permute_pixels flip_vertical sample_image).
  - unfold flips. constructor 1.
  - by_computation.
Defined.

Lemma blur_better_color_valid image x y :
  valid_image image -> (x, y) ∈ interior image ->
  valid_color (blur_better_color image x y).
Proof.
  intros Hval Hp.
  assert (H : forall x' y', x - 1 <= x' <= x + 1 -> y - 1 <= y' <= y + 1 ->
                valid_color (pixel_at image x' y')).
  { intros x' y' Hx Hy. apply valid_pixel_at; [done|].
    by apply (neighbours_in_range image x y). }
  pose proof (H (x - 1) (y - 1) ltac:(lia) ltac:(lia)) as H1.
  pose proof (H x (y - 1) ltac:(lia) ltac:(lia)) as H2.
  pose proof (H (x + 1) (y - 1) ltac:(lia) ltac:(lia)) as H3.
  pose proof (H (x - 1) y ltac:(lia) ltac:(lia)) as H4.
  pose proof (H x y ltac:(lia) ltac:(lia)) as H5.
  pose proof (H (x + 1) y ltac:(lia) ltac:(lia)) as H6.
  pose proof (H (x - 1) (y + 1) ltac:(lia) ltac:(lia)) as H7.
  pose proof (H x (y + 1) ltac:(lia) ltac:(lia)) as H8.
  pose proof (H (x + 1) (y + 1) ltac:(lia) ltac:(lia)) as H9.
  unfold blur_better_color, channel_sum, window, valid_color in *.
  cbn -[Z.div Z.add] in *.
  repeat split;
    first [apply Z.div_pos; lia | apply Z.div_le_upper_bound; lia].
Qed.

(** X25. Every filter but [sepia_tint] keeps the channels in 0..255: on a
    grid of the data model it returns a grid of the data model, so such
    filters can be chained without a check between them. *)
Theorem in_gamut_filters_keep_channels threshold f img :
  f ∈ in_gamut_filters threshold -> valid_image img ->
  exists out, f img = Ok out /\ valid_image out.
Proof.
  intros Hf Hval. pose proof Hval as [Hwf _].
  unfold in_gamut_filters, interior_filters in Hf.
  apply elem_of_app in Hf as [Hf|Hf];
    repeat (apply elem_of_cons in Hf as [->|Hf]); try by inversion Hf.
  - eexists. split; [by apply grayscale_ok|].
    apply map_image_valid; [|done]. intros c Hc.
    pose proof (brightness_of_range c Hc). destruct c as [r g b].
    unfold valid_color; cbn in *. lia.
  - eexists. split; [by apply weighted_grayscale_ok|].
    by apply weighted_grayscale_valid.
  - eexists. split; [by apply negative_ok|].
    apply map_image_valid; [|done]. intros [r g b].
    unfold valid_color; cbn. lia.
  - eexists. split; [by apply solarize_ok|].
    apply map_image_valid; [|done]. intros [r g b].
    unfold valid_color; cbn. repeat case_match; lia.
  - eexists. split; [by apply black_and_white_ok|].
    apply map_image_valid; [|done]. intros c _.
    unfold black_and_white_color. by case_match.
  - eexists. split; [by apply black_and_white_and_gray_ok|].
    apply map_image_valid; [|done]. intros c _.
    unfold black_and_white_and_gray_color. by repeat case_match.
  - eexists. split; [by apply extreme_contrast_ok|].
    apply map_image_valid; [|done]. intros [r g b] _.
    unfold valid_color; cbn. repeat case_match; lia.
  - eexists. split; [by apply posterize_ok|].
    apply map_image_valid; [|done]. intros [r g b] _.
    pose proof (adjust_component_range r). pose proof (adjust_component_range g).
    pose proof (adjust_component_range b). unfold valid_color; cbn. lia.
  - destruct (detect_edges_ok img threshold Hwf) as (out & ? & Hrw).
    exists out. split; [done|].
    apply (interior_rewrite_valid img out _ Hval Hrw). intros x y _.
    unfold detect_edges_color. by case_match.
  - destruct (detect_edges_better_ok img threshold Hwf) as (out & ? & Hrw).
    exists out. split; [done|].
    apply (interior_rewrite_valid img out _ Hval Hrw). intros x y _.
    unfold detect_edges_better_color. by case_match.
  - destruct (blur_better_ok img Hwf) as (out & ? & Hrw).
    exists out. split; [done|].
    apply (interior_rewrite_valid img out _ Hval Hrw). intros x y Hp.
    by apply blur_better_color_valid.
  - apply flips_valid; [|done]. unfold flips. constructor 1.
  - apply flips_valid; [|done]. unfold flips. constructor 2. constructor 1.
Qed.

Lemma in_gamut_filters_keep_channels_witness :
  exists out, blur_better sample_image = Ok out /\ valid_image out.
Proof.
  apply (in_gamut_filters_keep_channels 50 blur_better sample_image).
  - unfold in_gamut_filters, interior_filters. apply elem_of_app. right.
    do 2 constructor 2. constructor 1.
  - by_computation.
Defined.
